(** * chessOpenings: criticality evaluation, candidate merging, variation walk

    A shallow embedding of [main.py].  The program drives an UCI engine
    through python-chess, asks the Lichess masters explorer for popular
    moves, and walks the engine's principal variation while classifying every
    move as critical or flexible.

    What is outside the repository is kept abstract behind three interfaces:
    the rules of chess as python-chess implements them ([ChessLib]), the
    engine ([EnginePort], a stateful oracle that may fail on any call) and the
    explorer's HTTP answer ([ExplorerPort]).  Python's mutable [chess.Board],
    the engine process and raised exceptions are threaded through a small
    state-and-exception monad [M]; where [main] hands one board to several
    calls, the boards are objects in a store ([Objects]) in which a copy is a
    new object. *)

From Stdlib Require Import ZArith Lia.
From stdpp Require Import base tactics option list numbers sorting strings.

Local Open Scope Z_scope.

(** ** python-chess: colours and engine scores *)

(** [chess.WHITE] and [chess.BLACK]. *)
Inductive Color := White | Black.

#[global] Instance Color_eq_dec : EqDecision Color.
Proof. solve_decision. Defined.

(** [chess.engine.Score]: centipawns, mate in [moves] (negative when the side
    is being mated), or mate already given. *)
Inductive Score :=
  | Cp (cp : Z)
  | Mate (moves : Z)
  | MateGiven.

(** [Score.__neg__]. *)
Definition Score_neg (s : Score) : Score :=
  match s with
  | Cp cp => Cp (- cp)
  | Mate moves => if decide (moves = 0) then MateGiven else Mate (- moves)
  | MateGiven => Mate 0
  end.

(** [Score.score(mate_score=...)] with a mate score given: always an integer. *)
Definition Score_score (mate_score : Z) (s : Score) : Z :=
  match s with
  | Cp cp => cp
  | Mate moves => if decide (0 < moves) then mate_score - moves else - mate_score - moves
  | MateGiven => mate_score
  end.

(** [chess.engine.PovScore]: a score relative to the side [pov_turn]. *)
Record PovScore := { relative : Score; pov_turn : Color }.

(** [PovScore.pov(color)] and [PovScore.white()]. *)
Definition pov (color : Color) (ps : PovScore) : Score :=
  if decide (pov_turn ps = color) then relative ps else Score_neg (relative ps).

Definition white (ps : PovScore) : Score := pov White ps.

(** ** Exceptions and results *)

(** The exceptions the program can meet; all derive from [Exception], which is
    what every handler of [main.py] catches. *)
Inductive PyExc :=
  | EngineError      (* timeout, crash or protocol fault of the engine *)
  | KeyError         (* indexing a dictionary at an absent key *)
  | IndexError       (* popping an empty move stack *)
  | RequestException (* the explorer's HTTP request or its JSON decoding *).

Inductive Res (A : Type) :=
  | Ok (a : A)
  | Raise (e : PyExc).
Arguments Ok {A} a.
Arguments Raise {A} e.

(** ** The chess library *)

(** What the program uses of python-chess, over abstract positions and moves.
    Move equality is structural ([Move.__eq__]). *)
Class ChessLib := {
  Position : Type;
  Move : Type;
  Move_eq_dec :: EqDecision Move;
  (** [board.legal_moves], in generation order *)
  legal_moves : Position -> list Move;
  (** the position after a move; [board.push] never checks legality *)
  apply_move : Position -> Move -> Position;
  (** [board.turn] *)
  turn : Position -> Color;
  (** [board.fen()] *)
  fen : Position -> string;
  (** [board.san(move)]; [None] when it raises *)
  san : Position -> Move -> option string;
  (** [str(move)], the UCI text *)
  uci : Move -> string;
  (** [board.parse_san(text)]; [None] when it raises *)
  parse_san : Position -> string -> option Move;
}.

Section Boards.
Context `{ChessLib}.

(** [chess.Board]: the current position with python-chess's two stacks, the
    moves played and the positions to restore (most recent first). *)
Record Board := {
  position : Position;
  move_stack : list Move;
  state_stack : list Position;
}.

(** [board.push(move)].  python-chess lifts the piece from the move's
    from-square and asserts that there is one, so [push] follows the call on a
    move that is legal (or pseudo-legal) on [b], such as the moves that
    [legal_moves] and [parse_san] give and the first move of a sound engine's
    line.  On another move, such as a move played already, the call fails its
    assertion where [push] returns a board. *)
Definition push (b : Board) (move : Move) : Board :=
  {| position := apply_move (position b) move;
     move_stack := move :: move_stack b;
     state_stack := position b :: state_stack b |}.

(** [board.pop()]: [None] stands for the [IndexError] of an empty stack. *)
Definition pop (b : Board) : option (Move * Board) :=
  match move_stack b, state_stack b with
  | move :: moves, p :: states =>
      Some (move, {| position := p; move_stack := moves; state_stack := states |})
  | _, _ => None
  end.

(** [board.copy()]: a new object with the same contents, stacks included. *)
Definition copy (b : Board) : Board :=
  {| position := position b;
     move_stack := move_stack b;
     state_stack := state_stack b |}.

(** [chess.engine.InfoDict]: every key is optional. *)
Record InfoDict := {
  info_score : option PovScore;
  info_pv : option (list Move);
}.

End Boards.

(** ** The engine and the explorer *)

(** [engine.analyse(board, limit)] and [engine.analyse(board, limit,
    multipv=n)]: the engine has a state of its own, and a call may raise. *)
Class EnginePort `{ChessLib} := {
  Engine : Type;
  analyse : Engine -> Board -> Engine * Res InfoDict;
  analyse_multipv : Engine -> Board -> nat -> Engine * Res (list InfoDict);
}.

(** One entry of the explorer's ["moves"] list, as the explorer's interface
    has it: an object whose counts are numbers and whose move is a text;
    every key may be absent. *)
Record MoveData := {
  md_white : option Z;
  md_draws : option Z;
  md_black : option Z;
  md_san : option string;
}.

(** The explorer's JSON object, with its ["moves"] key present or not.  An
    answer of another shape (a ["moves"] that is no list, a count that is no
    number, an entry that is no object), on which lines 171-176 of
    [get_variation_candidates] and lines 80-85 of [get_top_moves_from_lichess]
    raise outside any [try], has no counterpart in this type: what is
    proved of the two functions is proved for answers of this shape. *)
Record ExplorerData := { ed_moves : option (list MoveData) }.

(** [requests.get(url)] followed by [raise_for_status()] and [json()]. *)
Class ExplorerPort := {
  requests_get_json : string -> Res ExplorerData;
}.

(** ** The state-and-exception monad *)

Section Monad.
Context `{CL : ChessLib} {E : Type}.

(** What a call of [main.py] can change: the engine process (of state type
    [E]) and the board object it was handed. *)
Record World := {
  w_engine : E;
  w_board : Board;
}.

(** A computation returns a value or raises, and leaves a world behind in
    both cases: what a [try] block did before raising is not rolled back. *)
Definition M (A : Type) : Type := World -> World * Res A.

Definition ret {A} (a : A) : M A := fun w => (w, Ok a).

Definition raise {A} (e : PyExc) : M A := fun w => (w, Raise e).

Definition bind {A B} (m : M A) (k : A -> M B) : M B :=
  fun w =>
    match m w with
    | (w', Ok a) => k a w'
    | (w', Raise e) => (w', Raise e)
    end.

(** [try: m  except Exception: handler] *)
Definition try_except {A} (m : M A) (handler : PyExc -> M A) : M A :=
  fun w =>
    match m w with
    | (w', Ok a) => (w', Ok a)
    | (w', Raise e) => handler e w'
    end.

Definition get_board : M Board := fun w => (w, Ok (w_board w)).

Definition put_board (b : Board) : M unit :=
  fun w => ({| w_engine := w_engine w; w_board := b |}, Ok tt).

(** stdpp's monad notations: [x ← m; k] and [m ;; k]. *)
#[global] Instance M_ret : MRet M := @ret.
#[global] Instance M_bind : MBind M := fun A B k m => bind m k.

End Monad.

Arguments World {CL} E.
Arguments M {CL} E A.

(** ** Python's built-ins *)

Section Sorted.
Context {A : Type} (key : A -> Z).

(** One step of a stable descending insertion: [x], which stood before every
    element of [l] in the input, goes before the first element whose key does
    not exceed its own. *)
Fixpoint insert_desc (x : A) (l : list A) : list A :=
  match l with
  | [] => [x]
  | y :: l' => if decide (key y <= key x) then x :: y :: l' else y :: insert_desc x l'
  end.

(** [sorted(l, key=key, reverse=True)]: descending by key, and stable (elements
    with equal keys keep the order they had in [l]). *)
Definition sorted_reverse (l : list A) : list A := foldr insert_desc [] l.

End Sorted.

(** ** The program *)

Section Program.
Context `{CL : ChessLib} `{EP : !EnginePort} `{XP : !ExplorerPort}.

(** [board.push(move)] on the board object. *)
Definition board_push (move : Move) : M Engine unit :=
  b ← get_board; put_board (push b move).

(** [board.pop()] on the board object. *)
Definition board_pop : M Engine Move :=
  b ← get_board;
  match pop b with
  | Some (move, b') => put_board b' ;; ret move
  | None => raise IndexError
  end.

(** [engine.analyse(board, chess.engine.Limit(time=analysis_time))] *)
Definition engine_analyse : M Engine InfoDict :=
  fun w =>
    let '(e, r) := analyse (w_engine w) (w_board w) in
    ({| w_engine := e; w_board := w_board w |}, r).

(** [engine.analyse(board, chess.engine.Limit(time=analysis_time),
    multipv=n)] *)
Definition engine_analyse_multipv (n : nat) : M Engine (list InfoDict) :=
  fun w =>
    let '(e, r) := analyse_multipv (w_engine w) (w_board w) n in
    ({| w_engine := e; w_board := w_board w |}, r).

(** [info["score"]] *)
Definition getitem_score (info : InfoDict) : M Engine PovScore :=
  match info_score info with
  | Some ps => ret ps
  | None => raise KeyError
  end.

(** [{"score": chess.engine.PovScore(chess.engine.Cp(0), chess.WHITE)}] *)
Definition neutral_info : InfoDict :=
  {| info_score := Some {| relative := Cp 0; pov_turn := White |};
     info_pv := None |}.

(** The five lines [evaluate_move_criticality] runs on the pushed board, for
    the candidate (104-108) and again for each alternative (116-120): analyse
    under a handler, then read the score from White's side in centipawns. *)
Definition analyse_white_cp : M Engine Z :=
  info ← try_except engine_analyse (fun _ => ret neutral_info);
  ps ← getitem_score info;
  ret (Score_score 10000 (white ps)).

(** The loop of lines 113-122 over [board.legal_moves]. *)
Fixpoint scan_alternatives (alts : list Move) (alternative_scores : list (Move * Z))
    : M Engine (list (Move * Z)) :=
  match alts with
  | [] => ret alternative_scores
  | alt :: rest =>
      board_push alt ;;
      alt_score ← analyse_white_cp;
      let alternative_scores := alternative_scores ++ [(alt, alt_score)] in
      board_pop ;;
      scan_alternatives rest alternative_scores
  end.

(** [max(s for m, s in alternative_scores)] on a list with head [s0]. *)
Definition max_score (s0 : Z) (rest : list (Move * Z)) : Z :=
  foldl (fun best ms => if decide (best < ms.2) then ms.2 else best) s0 rest.

(** [evaluate_move_criticality(board, move, engine, threshold, analysis_time)]:
    the verdict [(is_critical, score_diff)]. *)
Definition evaluate_move_criticality (move : Move) (threshold : Z) : M Engine (bool * Z) :=
  board_push move ;;
  best_score ← analyse_white_cp;
  board_pop ;;
  b ← get_board;
  alternative_scores ← scan_alternatives (legal_moves (position b)) [];
  let alternative_scores :=
    filter (fun ms => ms.1 <> move) alternative_scores in
  match alternative_scores with
  | [] => ret (false, 0)
  | (_, s0) :: rest =>
      let best_alternative := max_score s0 rest in
      let score_diff := best_score - best_alternative in
      let is_critical := bool_decide (threshold <= score_diff) in
      ret (is_critical, score_diff)
  end.

(** [x.get("white", 0) + x.get("draws", 0) + x.get("black", 0)], the sort key
    of both explorer functions. *)
Definition total_games (x : MoveData) : Z :=
  default 0 (md_white x) + default 0 (md_draws x) + default 0 (md_black x).

(** [query_lichess_openings(fen)]: the decoded answer, or [None] after any
    exception. *)
Definition query_lichess_openings (fen : string) : option ExplorerData :=
  match requests_get_json fen with
  | Ok data => Some data
  | Raise _ => None
  end.

(** [get_top_moves_from_lichess(data, top_n)] *)
Definition get_top_moves_from_lichess (data : ExplorerData) (top_n : nat) : list MoveData :=
  match ed_moves data with
  | None => []
  | Some moves => take top_n (sorted_reverse total_games moves)
  end.

(** The loop of lines 177-184: parse each entry's SAN against the board and
    keep the moves that parse. *)
Fixpoint parse_database_moves (b : Board) (entries : list MoveData)
    (candidate_moves : list Move) : list Move :=
  match entries with
  | [] => candidate_moves
  | move_data :: rest =>
      match md_san move_data with
      | Some text =>
          if decide (text = EmptyString) then parse_database_moves b rest candidate_moves
          else
            match parse_san (position b) text with
            | Some move => parse_database_moves b rest (candidate_moves ++ [move])
            | None => parse_database_moves b rest candidate_moves
            end
      | None => parse_database_moves b rest candidate_moves
      end
  end.

(** The loop of lines 189-192: the first move of every line that has one, unless
    it is a candidate already. *)
Fixpoint append_engine_moves (infos : list InfoDict) (candidate_moves : list Move)
    : list Move :=
  match infos with
  | [] => candidate_moves
  | info :: rest =>
      match info_pv info with
      | Some (pv0 :: _) =>
          if decide (pv0 ∈ candidate_moves) then append_engine_moves rest candidate_moves
          else append_engine_moves rest (candidate_moves ++ [pv0])
      | _ => append_engine_moves rest candidate_moves
      end
  end.

(** [get_variation_candidates(board, engine, top_moves_count, analysis_time)] *)
Definition get_variation_candidates (top_moves_count : nat) : M Engine (list Move) :=
  b ← get_board;
  let data := query_lichess_openings (fen (position b)) in
  let candidate_moves :=
    match data with
    | Some {| ed_moves := Some moves |} =>
        let sorted_moves := sorted_reverse total_games moves in
        parse_database_moves b (take top_moves_count sorted_moves) []
    | _ => []
    end in
  candidate_moves ←
    (if decide (length candidate_moves < top_moves_count)%nat then
       try_except
         (infos ← engine_analyse_multipv top_moves_count;
          ret (append_engine_moves infos candidate_moves))
         (fun _ => ret candidate_moves)
     else ret candidate_moves);
  ret (take top_moves_count candidate_moves).

(** The four texts [generate_plan_explanation] chooses from. *)
Inductive Explanation :=
  | Unclear
  | WhiteAdvantage
  | BlackAdvantage
  | Balanced.

(** [generate_plan_explanation(board, engine, analysis_time)] *)
Definition generate_plan_explanation : M Engine Explanation :=
  score ←
    try_except
      (info ← engine_analyse;
       ps ← getitem_score info;
       ret (Some (Score_score 10000 (white ps))))
      (fun _ => ret None);
  ret (match score with
       | None => Unclear
       | Some score =>
           if decide (100 < score) then WhiteAdvantage
           else if decide (score < -100) then BlackAdvantage
           else Balanced
       end).

(** [generate_position_svg(board, filename)]: it renders the board and writes
    a file, reporting a failed write on the console; neither the engine nor
    the board is touched, and nothing is raised. *)
Definition generate_position_svg : M Engine unit := ret tt.

(** One entry of [move_info_list]: [(move_san, is_critical, score_diff)]. *)
Definition MoveInfo : Type := string * bool * Z.

(** [try: board.san(move)  except Exception: str(move)] *)
Definition san_or_str (b : Board) (move : Move) : string :=
  match san (position b) move with
  | Some text => text
  | None => uci move
  end.

(** The body of the loop of lines 282-299, within its [try]: [None] is
    [break], [Some l] the list after the append.  Nothing after the append
    can raise, so the list the handler sees is the one the body started
    with. *)
Definition walk_step (threshold : Z) (move_info_list : list MoveInfo)
    : M Engine (option (list MoveInfo)) :=
  info ← engine_analyse;
  match info_pv info with
  | None | Some [] => ret None
  | Some (next_move :: _) =>
      '(is_crit, score_diff) ← evaluate_move_criticality next_move threshold;
      b ← get_board;
      let next_move_san := san_or_str b next_move in
      let move_info_list := move_info_list ++ [(next_move_san, is_crit, score_diff)] in
      board_push next_move ;;
      generate_position_svg ;;
      ret (Some move_info_list)
  end.

(** [for i in range(1, variation_depth)] with its [try]/[except: break];
    [iterations] is the list the range yields. *)
Fixpoint walk_loop (threshold : Z) (iterations : list nat)
    (move_info_list : list MoveInfo) : M Engine (list MoveInfo) :=
  match iterations with
  | [] => ret move_info_list
  | _ :: rest =>
      step ← try_except (walk_step threshold move_info_list) (fun _ => ret None);
      match step with
      | Some move_info_list => walk_loop threshold rest move_info_list
      | None => ret move_info_list
      end
  end.

(** The dictionary [analyze_variation] returns. *)
Record Variation := {
  moves : list string;
  critical_info : list MoveInfo;
  critical_count : nat;
  final_board : Board;
  explanation : Explanation;
}.

(** Lines 260-305 of [analyze_variation], run on the local [board]. *)
Definition walk (candidate_move : Move) (variation_depth : nat) (threshold : Z)
    : M Engine (list MoveInfo * Explanation) :=
  '(is_crit, score_diff) ←
    try_except (evaluate_move_criticality candidate_move threshold)
      (fun _ => ret (false, 0));
  b ← get_board;
  let candidate_san := san_or_str b candidate_move in
  let move_info_list := [(candidate_san, is_crit, score_diff)] in
  board_push candidate_move ;;
  generate_position_svg ;;
  move_info_list ←
    walk_loop threshold (seq 1 (variation_depth - 1)) move_info_list;
  explanation ← generate_plan_explanation;
  ret (move_info_list, explanation).

(** [analyze_variation(start_board, candidate_move, engine, variation_depth,
    analysis_time, threshold)]: the walk runs on a copy of [start_board], which
    the caller keeps as it was; the engine is shared with the caller. *)
Definition analyze_variation (start_board : Board) (candidate_move : Move)
    (variation_depth : nat) (threshold : Z) (engine : Engine)
    : Engine * Res Variation :=
  let board := copy start_board in
  match walk candidate_move variation_depth threshold
          {| w_engine := engine; w_board := board |} with
  | (w, Ok (move_info_list, explanation)) =>
      (w_engine w,
       Ok {| moves := map (fun e => e.1.1) move_info_list;
             critical_info := move_info_list;
             critical_count := length (filter (fun e => e.1.2 = true) move_info_list);
             final_board := w_board w;
             explanation := explanation |})
  | (w, Raise e) => (w_engine w, Raise e)
  end.

End Program.

(** ** The opening line and the top-level loop *)

Section OpeningLine.
Context `{CL : ChessLib} `{EP : !EnginePort} `{XP : !ExplorerPort}.

(** [chess.Board()] for the game whose initial position is [start]. *)
Definition new_board (start : Position) : Board :=
  {| position := start; move_stack := []; state_stack := [] |}.

(** [board.push_san(text)]: the text is parsed against the board and the
    move pushed; [None] when parsing raises. *)
Definition push_san (b : Board) (text : string) : option Board :=
  match parse_san (position b) text with
  | Some move => Some (push b move)
  | None => None
  end.

(** The loop of lines 49-50 (and of lines 333-339 of [main]): every text is
    pushed in turn; [None] as soon as one raises. *)
Fixpoint push_san_all (b : Board) (moves_list : list string) : option Board :=
  match moves_list with
  | [] => Some b
  | move :: rest =>
      match push_san b move with
      | Some b' => push_san_all b' rest
      | None => None
      end
  end.

(** [get_fen_from_moves(moves_list)]: the FEN after the moves, or [None]
    after any exception. *)
Definition get_fen_from_moves (start : Position) (moves_list : list string)
    : option string :=
  match push_san_all (new_board start) moves_list with
  | Some board => Some (fen (position board))
  | None => None
  end.

(** What [main] holds: the engine process and the board objects, each under
    a name of its own.  A call is handed the name of a board, and what it does
    to the board it does to that object; [next_board] is the first name not in
    use. *)
Record Objects := {
  the_engine : Engine;
  board_at : nat -> Board;
  next_board : nat;
}.

(** The objects of [main] at the start of step 3: the engine, and the board
    after the opening line under the name 0. *)
Definition main_objects (engine : Engine) (board : Board) : Objects :=
  {| the_engine := engine; board_at := fun _ => board; next_board := 1 |}.

(** A function of the program called with the board object [board] and the
    engine. *)
Definition on_board {A} (board : nat) (m : M Engine A) (s : Objects)
    : Objects * Res A :=
  let '(w, r) := m {| w_engine := the_engine s; w_board := board_at s board |} in
  ({| the_engine := w_engine w;
      board_at := fun name => if decide (name = board) then w_board w else board_at s name;
      next_board := next_board s |},
   r).

(** [start_board.copy()] (line 261): a new object with the contents of
    [start_board]; the result is its name. *)
Definition board_copy (start_board : nat) (s : Objects) : Objects * nat :=
  ({| the_engine := the_engine s;
      board_at := fun name =>
        if decide (name = next_board s) then copy (board_at s start_board)
        else board_at s name;
      next_board := S (next_board s) |},
   next_board s).

(** [analyze_variation] called with the board object [start_board], as [main]
    calls it: lines 260-305 run on the copy made at line 261, and the
    dictionary holds that copy as it is on return. *)
Definition call_analyze_variation (start_board : nat) (candidate_move : Move)
    (variation_depth : nat) (threshold : Z) (s : Objects)
    : Objects * Res Variation :=
  let '(s1, board) := board_copy start_board s in
  match on_board board (walk candidate_move variation_depth threshold) s1 with
  | (s2, Ok (move_info_list, explanation)) =>
      (s2,
       Ok {| moves := map (fun e => e.1.1) move_info_list;
             critical_info := move_info_list;
             critical_count := length (filter (fun e => e.1.2 = true) move_info_list);
             final_board := board_at s2 board;
             explanation := explanation |})
  | (s2, Raise e) => (s2, Raise e)
  end.

(** The loop of lines 356-366 of [main], without its printing: every
    candidate is walked with the same object [board], five plies deep with
    threshold 50, on the shared engine. *)
Fixpoint analyze_candidates (board : nat) (candidates : list Move)
    (variations : list Variation) (s : Objects)
    : Objects * Res (list Variation) :=
  match candidates with
  | [] => (s, Ok variations)
  | candidate :: rest =>
      match call_analyze_variation board candidate 5 50 s with
      | (s', Ok var_analysis) =>
          analyze_candidates board rest (variations ++ [var_analysis]) s'
      | (s', Raise e) => (s', Raise e)
      end
  end.

(** Steps 3 and 4 of [main] (lines 345-366), without their printing, for the
    board object [board] that holds the position after the opening line: three
    candidates are asked for and each is walked; without candidates nothing is
    walked.  The result is the list [variations]. *)
Definition main_variations (board : nat) (s : Objects)
    : Objects * Res (list Variation) :=
  match on_board board (get_variation_candidates 3) s with
  | (s1, Ok candidates) => analyze_candidates board candidates [] s1
  | (s1, Raise e) => (s1, Raise e)
  end.

End OpeningLine.

(** ** Reading the program: what its calls observe *)

Section Observations.
Context `{CL : ChessLib} `{EP : !EnginePort}.

(** The Engine Port's interface: an analysis returns a line and a score, so
    an answer that is not a failure carries a score.  The program relies on
    it: it indexes [info["score"]] without a default, while it reads the line
    with [info.get("pv")]. *)
Definition answers_carry_score : Prop :=
  forall (e e' : Engine) (b : Board) (info : InfoDict),
    analyse e b = (e', Ok info) -> is_Some (info_score info).

(** What one scoring call contributes when the engine answers [r]: the
    answer's score seen from White in centipawns, mates capped at 10000, and
    0 when the call failed. *)
Definition reported_cp (r : Res InfoDict) : Res Z :=
  match r with
  | Raise _ => Ok 0
  | Ok info =>
      match info_score info with
      | Some ps => Ok (Score_score 10000 (white ps))
      | None => Raise KeyError
      end
  end.

(** The score one call on board [b] yields in engine state [e], with the
    engine state it leaves. *)
Definition score_call (e : Engine) (b : Board) : Engine * Z :=
  let '(e', r) := analyse e b in
  (e', match reported_cp r with Ok s => s | Raise _ => 0 end).

(** The table of scores for a list of moves tried in turn from board [b]:
    each move is applied to [b] and the resulting board analysed once. *)
Fixpoint observed_scores (e : Engine) (b : Board) (alts : list Move)
    : Engine * list (Move * Z) :=
  match alts with
  | [] => (e, [])
  | alt :: rest =>
      let '(e1, s) := score_call e (push b alt) in
      let '(e2, table) := observed_scores e1 b rest in
      (e2, (alt, s) :: table)
  end.

(** One probe of a move, as both halves of [evaluate_move_criticality] do
    it: push, score, pop. *)
Definition probe (move : Move) : M Engine Z :=
  board_push move ;; s ← analyse_white_cp; board_pop ;; mret s.

(** The verdict of lines 124-133 from the candidate's score and the table of
    all legal moves' scores. *)
Definition verdict (move : Move) (threshold best_score : Z)
    (alternative_scores : list (Move * Z)) : bool * Z :=
  match filter (fun ms => ms.1 <> move) alternative_scores with
  | [] => (false, 0)
  | (_, s0) :: rest =>
      (bool_decide (threshold <= best_score - max_score s0 rest),
       best_score - max_score s0 rest)
  end.

(** A centipawn value given from White's side, read from the side of [c]. *)
Definition for_side (c : Color) (white_cp : Z) : Z :=
  match c with
  | White => white_cp
  | Black => - white_cp
  end.

(** Every alternative of the table is worse than the chosen move for the side
    [mover], by [threshold] centipawns at least. *)
Definition forced_for (mover : Color) (move : Move) (threshold chosen : Z)
    (table : list (Move * Z)) : Prop :=
  forall alt s,
    (alt, s) ∈ table -> alt <> move ->
    threshold <= for_side mover chosen - for_side mover s.

(** The world and the list after lines 260-278 of [analyze_variation]: the
    candidate is judged (a raised exception counts as not critical, margin
    0), recorded and played. *)
Definition first_ply (candidate_move : Move) (threshold : Z) (w : World Engine)
    : World Engine * list MoveInfo :=
  let '(w1, r) := evaluate_move_criticality candidate_move threshold w in
  let v := match r with Ok v => v | Raise _ => (false, 0) end in
  ({| w_engine := w_engine w1; w_board := push (w_board w1) candidate_move |},
   [(san_or_str (w_board w1) candidate_move, v.1, v.2)]).

(** [k] successful passes through the walk's loop body, from world [w] and
    list [l]: the world and list they lead to, or [None] if one of them
    breaks or raises. *)
Fixpoint run_steps (threshold : Z) (k : nat) (w : World Engine) (l : list MoveInfo)
    : option (World Engine * list MoveInfo) :=
  match k with
  | O => Some (w, l)
  | S k' =>
      match walk_step threshold l w with
      | (w1, Ok (Some l1)) => run_steps threshold k' w1 l1
      | _ => None
      end
  end.

(** The next pass of the loop cannot record a move: the request for the
    engine's line fails, the line is absent or empty, or handling the move
    raises. *)
Definition walk_stops_here (threshold : Z) (w : World Engine) (l : list MoveInfo)
    : Prop :=
  (exists e' x, analyse (w_engine w) (w_board w) = (e', Raise x)) \/
  (exists e' info,
      analyse (w_engine w) (w_board w) = (e', Ok info) /\
      (info_pv info = None \/ info_pv info = Some [])) \/
  (exists w' x, walk_step threshold l w = (w', Raise x)).

(** The texts recorded for a line of moves played from board [b]. *)
Fixpoint line_texts (b : Board) (line : list Move) : list string :=
  match line with
  | [] => []
  | move :: rest => san_or_str b move :: line_texts (push b move) rest
  end.

End Observations.

(** The engine that answers as [EP] does, except that a failed single-line
    analysis becomes the neutral answer. *)
Definition neutralise `{CL : ChessLib} (EP : EnginePort) : EnginePort :=
  {| Engine := @Engine CL EP;
     analyse e b :=
       let '(e', r) := @analyse CL EP e b in
       (e', match r with Ok info => Ok info | Raise _ => Ok neutral_info end);
     analyse_multipv := @analyse_multipv CL EP |}.

(** Descending order of keys, the order [sorted_reverse] establishes. *)
Definition descending {A : Type} (key : A -> Z) (x y : A) : Prop := key y <= key x.

Section CandidateReading.
Context `{CL : ChessLib} `{EP : !EnginePort} `{XP : !ExplorerPort}.

(** The move an explorer entry stands for on board [b], if it has a text and
    the text parses. *)
Definition entry_move (b : Board) (move_data : MoveData) : option Move :=
  match md_san move_data with
  | Some text =>
      if decide (text = EmptyString) then None else parse_san (position b) text
  | None => None
  end.

(** The first move of an engine line, if it has one. *)
Definition first_move (info : InfoDict) : option Move :=
  match info_pv info with
  | Some (pv0 :: _) => Some pv0
  | _ => None
  end.

(** The moves of [ms] that are neither in [seen] nor earlier in [ms], in
    the order of [ms]. *)
Fixpoint fresh_moves (seen : list Move) (ms : list Move) : list Move :=
  match ms with
  | [] => []
  | m :: rest =>
      if decide (m ∈ seen) then fresh_moves seen rest
      else m :: fresh_moves (seen ++ [m]) rest
  end.

(** The entries the explorer returned for board [b]; none when the request
    failed or the answer has no ["moves"]. *)
Definition explorer_entries (b : Board) : list MoveData :=
  match query_lichess_openings (fen (position b)) with
  | Some {| ed_moves := Some entries |} => entries
  | _ => []
  end.

(** The candidates taken from the explorer: of the [n] most played entries,
    those that parse. *)
Definition database_candidates (b : Board) (n : nat) : list Move :=
  omap (entry_move b) (take n (sorted_reverse total_games (explorer_entries b))).

End CandidateReading.

(** The engine [EP] with a log of the boards it was asked about, in the order
    of the calls. *)
Definition logged `{CL : ChessLib} (EP : EnginePort) : EnginePort :=
  {| Engine := (@Engine CL EP * list Board)%type;
     analyse s b :=
       let '(e', r) := @analyse CL EP s.1 b in ((e', s.2 ++ [b]), r);
     analyse_multipv s b n :=
       let '(e', r) := @analyse_multipv CL EP s.1 b n in ((e', s.2 ++ [b]), r) |}.

Section Laws.
Context `{CL : ChessLib} `{EP : !EnginePort}.

(** python-chess writes a legal move in a text that it parses back to the
    same move. *)
Definition san_parses_back : Prop :=
  forall (p : Position) (move : Move),
    move ∈ legal_moves p ->
    exists text, san p move = Some text /\ parse_san p text = Some move.

(** python-chess parses a text only to a legal move. *)
Definition parse_san_is_legal : Prop :=
  forall (p : Position) (text : string) (move : Move),
    parse_san p text = Some move -> move ∈ legal_moves p.

(** The engine's line, when it has one, starts with a legal move of the
    board it was asked about. *)
Definition lines_start_legal : Prop :=
  forall (e e' : Engine) (b : Board) (info : InfoDict) (move : Move) (pv : list Move),
    analyse e b = (e', Ok info) ->
    info_pv info = Some (move :: pv) ->
    move ∈ legal_moves (position b).

(** The same for the lines of a multi-line analysis. *)
Definition multipv_lines_start_legal : Prop :=
  forall (e e' : Engine) (b : Board) (n : nat) (infos : list InfoDict)
         (info : InfoDict) (move : Move),
    analyse_multipv e b n = (e', Ok infos) ->
    info ∈ infos ->
    first_move info = Some move ->
    move ∈ legal_moves (position b).

(** A line of moves each legal where it is played, from board [b]. *)
Fixpoint legal_line (b : Board) (line : list Move) : Prop :=
  match line with
  | [] => True
  | move :: rest => move ∈ legal_moves (position b) /\ legal_line (push b move) rest
  end.

End Laws.

(** ** A game small enough to run *)

(** A heap of tokens from which the side to move takes one or two; it stands
    in for chess where a statement is checked on a concrete run. *)
Module Nim.
Local Open Scope nat_scope.

Record Heap := { tokens : nat; to_move : Color }.

Definition other (c : Color) : Color :=
  match c with White => Black | Black => White end.

Definition heap_moves (p : Heap) : list nat :=
  match tokens p with
  | 0 => []
  | 1 => [1]
  | _ => [1; 2]
  end.

Definition take_tokens (p : Heap) (m : nat) : Heap :=
  {| tokens := tokens p - m; to_move := other (to_move p) |}.

Definition move_text (m : nat) : string :=
  match m with
  | 1 => "one"
  | 2 => "two"
  | _ => "none"
  end.

Definition heap_san (p : Heap) (m : nat) : option string :=
  if decide (m ∈ heap_moves p) then Some (move_text m) else None.

Definition heap_parse (p : Heap) (text : string) : option nat :=
  if decide (text = "one" ∧ 1 ∈ heap_moves p) then Some 1
  else if decide (text = "two" ∧ 2 ∈ heap_moves p) then Some 2
  else None.

#[export] Instance rules : ChessLib :=
  {| Position := Heap;
     Move := nat;
     legal_moves := heap_moves;
     apply_move := take_tokens;
     turn := to_move;
     fen p := move_text (tokens p);
     san := heap_san;
     uci m := String.append "take-" (move_text m);
     parse_san := heap_parse |}.

(** A fresh board on a heap. *)
Definition board_of (n : nat) (c : Color) : Board :=
  {| position := {| tokens := n; to_move := c |};
     move_stack := [];
     state_stack := [] |}.

(** A deterministic engine stub: it counts its calls and answers from the
    board alone. *)
Definition stub (reply : Board -> Res InfoDict)
    (lines : Board -> nat -> Res (list InfoDict)) : EnginePort :=
  {| Engine := nat;
     analyse e b := (S e, reply b);
     analyse_multipv e b n := (S e, lines b n) |}.

(** An answer with a centipawn score from White's side and a line. *)
Definition answer (cp : Z) (pv : list nat) : InfoDict :=
  {| info_score := Some {| relative := Cp cp; pov_turn := White |};
     info_pv := Some pv |}.

(** A stub that scores a board by the tokens left on it and proposes the
    line [pv]; asked for [n] lines, it proposes the first [n] legal moves. *)
Definition by_tokens (score : nat -> Z) (pv : Board -> list nat) : EnginePort :=
  stub (fun b => Ok (answer (score (tokens (position b))) (pv b)))
       (fun b n => Ok (map (fun m => answer 0 [m]) (take n (heap_moves (position b))))).

(** 100 centipawns with one token left, 40 otherwise. *)
Definition hundred_or_forty : EnginePort :=
  by_tokens (fun t => match t with 1 => 100%Z | _ => 40%Z end) (fun _ => [1]).

(** Good for Black with one token left (-200 from White's side), level
    otherwise. *)
Definition good_for_black : EnginePort :=
  by_tokens (fun t => match t with 1 => (-200)%Z | _ => 0%Z end) (fun _ => [1]).

(** Level everywhere; the line is empty once two moves have been played. *)
Definition line_ends_at_ply_two : EnginePort :=
  by_tokens (fun _ => 0%Z)
    (fun b => if decide (length (move_stack b) < 2) then [1] else []).

(** 100 centipawns while tokens are left; the call fails on an empty heap,
    and so does every multi-line call. *)
Definition fails_on_empty_heap : EnginePort :=
  stub (fun b => match tokens (position b) with
                 | 0 => Raise EngineError
                 | _ => Ok (answer 100 [1])
                 end)
       (fun _ _ => Raise EngineError).

(** Answers that carry a line but no score. *)
Definition scoreless : EnginePort :=
  stub (fun _ => Ok {| info_score := None; info_pv := Some [1] |})
       (fun _ _ => Raise EngineError).

(** An explorer entry with a text and a number of games won by White. *)
Definition entry (text : string) (games : Z) : MoveData :=
  {| md_white := Some games; md_draws := None; md_black := None;
     md_san := Some text |}.

(** An explorer that answers every request with the same entries. *)
Definition explorer_of (entries : list MoveData) : ExplorerPort :=
  {| requests_get_json _ := Ok {| ed_moves := Some entries |} |}.

(** An explorer that cannot be reached. *)
Definition explorer_down : ExplorerPort :=
  {| requests_get_json _ := Raise RequestException |}.

End Nim.

(** More stubs on the small game. *)
Module NimStubs.
Import Nim.
Local Open Scope nat_scope.

(** Level everywhere; the line is the first legal move, and is empty once two
    moves have been played. *)
Definition first_legal_until_ply_two : EnginePort :=
  by_tokens (fun _ => 0%Z)
    (fun b => if decide (length (move_stack b) < 2)
              then take 1 (heap_moves (position b)) else []).

(** An explorer entry with its three counts. *)
Definition counted (text : string) (white_wins draws black_wins : Z) : MoveData :=
  {| md_white := Some white_wins; md_draws := Some draws; md_black := Some black_wins;
     md_san := Some text |}.

(** An answer relative to Black: 30 centipawns for Black. *)
Definition black_relative : EnginePort :=
  stub (fun _ => Ok {| info_score := Some {| relative := Cp 30; pov_turn := Black |};
                       info_pv := Some [] |})
       (fun _ _ => Raise EngineError).

End NimStubs.

Arguments push : simpl never.
Arguments pop : simpl never.

(** * Proofs *)

(** Exposes the first action of a sequence in the goal. *)
Ltac step_bind := unfold mbind, M_bind, bind.

(** Unfolds every operation of the monad in the goal. *)
Ltac unfold_monad :=
  unfold generate_position_svg, try_except, raise; step_bind;
  unfold mret, M_ret, ret.

(** ** The criticality evaluator *)

Section EvaluateFacts.
Context `{CL : ChessLib} `{EP : !EnginePort}.

(** A pop undoes the push before it. *)
Lemma pop_push (b : Board) (move : Move) : pop (push b move) = Some (move, b).
Proof. destruct b; reflexivity. Qed.

(** One pass of the loop over the legal moves is a probe. *)
Lemma scan_unfold alt rest acc w :
  scan_alternatives (alt :: rest) acc w =
  (s ← probe alt; scan_alternatives rest (acc ++ [(alt, s)])) w.
Proof.
  simpl. unfold probe; unfold_monad.
  destruct (board_push alt w) as [w1 [[]|x]]; [|reflexivity].
  destruct (analyse_white_cp w1) as [w2 [s|x]]; [|reflexivity].
  destruct (board_pop w2) as [w3 [m|x]]; reflexivity.
Qed.

(** A probe asks the engine once about the pushed board.  It restores the
    board, unless the answer has no score: then [KeyError] is raised before
    the pop, and the move stays on the board. *)
Lemma probe_run move w :
  probe move w =
  let '(e', r) := analyse (w_engine w) (push (w_board w) move) in
  match reported_cp r with
  | Ok s => ({| w_engine := e'; w_board := w_board w |}, Ok s)
  | Raise x => ({| w_engine := e'; w_board := push (w_board w) move |}, Raise x)
  end.
Proof.
  unfold probe, analyse_white_cp, board_push, board_pop, engine_analyse,
    getitem_score, get_board, put_board; unfold_monad. simpl.
  destruct (analyse _ _) as [e' [info|x]]; simpl.
  - destruct (info_score info); simpl; [|reflexivity].
    by destruct (w_board w).
  - by destruct (w_board w).
Qed.

(** A scan that returns has restored the board. *)
Lemma scan_restores_board alts acc w w' l :
  scan_alternatives alts acc w = (w', Ok l) -> w_board w' = w_board w.
Proof.
  revert acc w. induction alts as [|alt rest IH]; intros acc w.
  - simpl. by intros [= <- _].
  - rewrite scan_unfold. step_bind. rewrite probe_run.
    destruct (analyse _ _) as [e' r]. destruct (reported_cp r) as [s|x]; [|done].
    intros Hrun. by apply IH in Hrun.
Qed.

(** With scored answers the scan fills the table of observed scores. *)
Lemma scan_run :
  answers_carry_score ->
  forall alts acc e b,
    scan_alternatives alts acc {| w_engine := e; w_board := b |} =
    ({| w_engine := (observed_scores e b alts).1; w_board := b |},
     Ok (acc ++ (observed_scores e b alts).2)).
Proof.
  intros Hscore alts. induction alts as [|alt rest IH]; intros acc e b.
  - simpl. by rewrite app_nil_r.
  - rewrite scan_unfold. step_bind. rewrite probe_run.
    cbn [observed_scores w_engine w_board]. unfold score_call.
    destruct (analyse e (push b alt)) as [e1 r] eqn:Hcall.
    destruct r as [info|x]; cbn [reported_cp].
    + destruct (Hscore _ _ _ _ Hcall) as [ps ->].
      rewrite IH. destruct (observed_scores e1 b rest) as [e2 table].
      cbn. by rewrite <- app_assoc.
    + rewrite IH. destruct (observed_scores e1 b rest) as [e2 table].
      cbn. by rewrite <- app_assoc.
Qed.

(** The table has one row for each move tried, in order. *)
Lemma observed_scores_moves e b alts : (observed_scores e b alts).2.*1 = alts.
Proof.
  revert e. induction alts as [|alt rest IH]; intros e; [done|].
  cbn [observed_scores]. destruct (score_call e (push b alt)) as [e1 s].
  specialize (IH e1). destruct (observed_scores e1 b rest) as [e2 table].
  cbn in *. by rewrite IH.
Qed.

(** The evaluator is a probe of the candidate, a scan, and the verdict. *)
Lemma evaluate_unfold move threshold w :
  evaluate_move_criticality move threshold w =
  (best_score ← probe move;
   b ← get_board;
   table ← scan_alternatives (legal_moves (position b)) [];
   mret (verdict move threshold best_score table)) w.
Proof.
  unfold evaluate_move_criticality, probe, verdict; unfold_monad.
  destruct (board_push move w) as [w1 [[]|x]]; [|reflexivity].
  destruct (analyse_white_cp w1) as [w2 [s|x]]; [|reflexivity].
  destruct (board_pop w2) as [w3 [m|x]]; [|reflexivity].
  destruct (get_board w3) as [w4 [b|x]]; [|reflexivity].
  destruct (scan_alternatives _ _ w4) as [w5 [table|x]]; [|reflexivity].
  destruct (filter _ table) as [|[? s0] rest]; reflexivity.
Qed.

(** [max_score] is attained and bounds every score it ranges over. *)
Lemma max_score_spec (rest : list (Move * Z)) (s0 : Z) :
  (max_score s0 rest = s0 \/ exists m, (m, max_score s0 rest) ∈ rest) /\
  s0 <= max_score s0 rest /\
  forall m s, (m, s) ∈ rest -> s <= max_score s0 rest.
Proof.
  unfold max_score. revert s0.
  induction rest as [|[m1 s1] rest IH]; intros s0; cbn [foldl].
  - split; [by left|]. split; [lia|]. intros m s Hin. by apply elem_of_nil in Hin.
  - cbn [snd]. case_decide as Hlt.
    + destruct (IH s1) as (Hatt & Hle & Hub). split; [|split].
      * right. destruct Hatt as [-> | [m Hm]].
        -- exists m1. by left.
        -- exists m. by right.
      * lia.
      * intros m s [[= -> ->] | Hin]%elem_of_cons; [done|]. by eapply Hub.
    + destruct (IH s0) as (Hatt & Hle & Hub). split; [|split].
      * destruct Hatt as [Heq | [m Hm]]; [by left|]. right. exists m. by right.
      * done.
      * intros m s [[= -> ->] | Hin]%elem_of_cons; [lia|]. by eapply Hub.
Qed.

(** The evaluator on an engine whose answers carry a score. *)
Lemma evaluate_run :
  answers_carry_score ->
  forall move threshold w,
    evaluate_move_criticality move threshold w =
    let b := w_board w in
    let chosen := score_call (w_engine w) (push b move) in
    let table := observed_scores chosen.1 b (legal_moves (position b)) in
    ({| w_engine := table.1; w_board := b |},
     Ok (verdict move threshold chosen.2 table.2)).
Proof.
  intros Hscore move threshold w. rewrite evaluate_unfold.
  step_bind. rewrite probe_run. unfold score_call.
  destruct (analyse (w_engine w) (push (w_board w) move)) as [e1 r] eqn:Hcall.
  assert (exists s, reported_cp r = Ok s) as [s Hs].
  { destruct r as [info|x]; cbn; [|by eexists].
    destruct (Hscore _ _ _ _ Hcall) as [ps ->]. by eexists. }
  rewrite Hs. cbn [get_board w_board w_engine fst snd].
  by rewrite (scan_run Hscore).
Qed.

(** Whenever the evaluator returns, the board is the one it was given. *)
Lemma evaluate_restores_on_return move threshold w w' v :
  evaluate_move_criticality move threshold w = (w', Ok v) ->
  w_board w' = w_board w.
Proof.
  rewrite evaluate_unfold. step_bind. rewrite probe_run.
  destruct (analyse _ _) as [e1 r]. destruct (reported_cp r) as [s|x]; [|done].
  cbn [get_board w_board].
  destruct (scan_alternatives _ _ _) as [w2 [table|x]] eqn:Hscan; [|done].
  intros [= <- _]. by apply scan_restores_board in Hscan.
Qed.

(** With scored answers the evaluator returns a verdict. *)
Lemma evaluate_returns :
  answers_carry_score ->
  forall move threshold w,
    exists w' v, evaluate_move_criticality move threshold w = (w', Ok v).
Proof. intros Hscore move threshold w. rewrite (evaluate_run Hscore). by eexists _, _. Qed.

(** The verdict when the table has a row for a move other than the
    candidate: the margin is taken against the best such row. *)
Lemma verdict_with_alternative move threshold chosen (table : list (Move * Z)) :
  (exists alt s, (alt, s) ∈ table /\ alt <> move) ->
  exists best,
    verdict move threshold chosen table =
      (bool_decide (threshold <= chosen - best), chosen - best) /\
    (exists alt, alt <> move /\ (alt, best) ∈ table) /\
    (forall alt s, alt <> move -> (alt, s) ∈ table -> s <= best).
Proof.
  intros (alt & s & Hin & Hne). unfold verdict.
  assert ((alt, s) ∈ filter (fun ms => ms.1 <> move) table) as Hrow.
  { apply list_elem_of_filter. by split. }
  destruct (filter _ table) as [|[m0 s0] rest] eqn:Hfilter.
  { by apply elem_of_nil in Hrow. }
  assert (forall m sm, (m, sm) ∈ (m0, s0) :: rest -> m <> move /\ (m, sm) ∈ table)
    as Hsub.
  { intros m sm Hm. rewrite <- Hfilter in Hm.
    by apply list_elem_of_filter in Hm as [? ?]. }
  destruct (max_score_spec rest s0) as (Hatt & Hle & Hub).
  exists (max_score s0 rest). split; [done|]. split.
  - assert (exists m, (m, max_score s0 rest) ∈ (m0, s0) :: rest) as [m Hm].
    { destruct Hatt as [-> | [m Hm]]; [exists m0; by left | exists m; by right]. }
    destruct (Hsub _ _ Hm) as [Hm1 Hm2]. by exists m.
  - intros a sa Ha Hina.
    assert ((a, sa) ∈ (m0, s0) :: rest) as [[= -> ->] | Hin']%elem_of_cons.
    { rewrite <- Hfilter. apply list_elem_of_filter. by split. }
    + done.
    + by eapply Hub.
Qed.

(** C1: on an engine whose answers carry a score, when the position has a
    legal move other than the candidate, the margin is the candidate's score minus [best], where [best] is the score of
    a legal move other than the candidate and no such move scores higher (the
    candidate's own row of the table is never compared against); the move is
    critical exactly when the margin reaches the threshold, so a margin equal
    to the threshold is critical and a margin one below is not. *)
Theorem evaluate_margin_against_best_alternative :
  answers_carry_score ->
  forall (w : World Engine) (move : Move) (threshold : Z),
    let b := w_board w in
    let chosen := score_call (w_engine w) (push b move) in
    let table := observed_scores chosen.1 b (legal_moves (position b)) in
    move ∈ legal_moves (position b) ->
    (exists alt, alt ∈ legal_moves (position b) /\ alt <> move) ->
    exists best,
      evaluate_move_criticality move threshold w =
        ({| w_engine := table.1; w_board := b |},
         Ok (bool_decide (threshold <= chosen.2 - best), chosen.2 - best)) /\
      (exists alt, alt <> move /\ alt ∈ legal_moves (position b) /\ (alt, best) ∈ table.2) /\
      (forall alt s, alt <> move -> (alt, s) ∈ table.2 -> s <= best) /\
      table.2.*1 = legal_moves (position b).
Proof.
  intros Hscore w move threshold b chosen table _ (alt & Halt & Hne).
  pose proof (observed_scores_moves chosen.1 b (legal_moves (position b))) as Hmoves.
  fold table in Hmoves.
  destruct (verdict_with_alternative move threshold chosen.2 table.2)
    as (best & Hverdict & (a & Ha & Hrow) & Hbound).
  { rewrite <- Hmoves in Halt. apply list_elem_of_fmap in Halt as ([a s] & -> & Hin).
    by exists a, s. }
  exists best. split; [|split; [|split; [done|done]]].
  - rewrite (evaluate_run Hscore). cbn zeta. fold b. fold chosen. fold table.
    by rewrite Hverdict.
  - exists a. split; [done|]. split; [|done].
    rewrite <- Hmoves. apply list_elem_of_fmap. by exists (a, best).
Qed.

(** Whoever is to move, the evaluator calls a move critical exactly when
    every other legal move scores, from White's side, at least the threshold
    below it. *)
Lemma evaluate_critical_iff_white_margin :
  answers_carry_score ->
  forall (w : World Engine) (move : Move) (threshold : Z),
    let b := w_board w in
    let chosen := score_call (w_engine w) (push b move) in
    let table := observed_scores chosen.1 b (legal_moves (position b)) in
    (exists alt, alt ∈ legal_moves (position b) /\ alt <> move) ->
    exists is_critical margin,
      evaluate_move_criticality move threshold w =
        ({| w_engine := table.1; w_board := b |}, Ok (is_critical, margin)) /\
      (is_critical = true <-> forced_for White move threshold chosen.2 table.2).
Proof.
  intros Hscore w move threshold b chosen table (alt & Halt & Hne).
  pose proof (observed_scores_moves chosen.1 b (legal_moves (position b))) as Hmoves.
  fold table in Hmoves.
  destruct (verdict_with_alternative move threshold chosen.2 table.2)
    as (best & Hverdict & (a & Ha & Hrow) & Hbound).
  { rewrite <- Hmoves in Halt. apply list_elem_of_fmap in Halt as ([a s] & -> & Hin).
    by exists a, s. }
  eexists _, _. split.
  - rewrite (evaluate_run Hscore). cbn zeta. fold b. fold chosen. fold table.
    by rewrite Hverdict.
  - rewrite bool_decide_eq_true. unfold forced_for, for_side. split.
    + intros Hcrit a' s' Hin' Hne'. specialize (Hbound a' s' Hne' Hin'). lia.
    + intros Hforced. by apply (Hforced a best).
Qed.

(** When the answer about the candidate has no score, [KeyError] leaves the
    evaluator and the candidate stays pushed on the caller's board. *)
Lemma evaluate_raises_on_scoreless_answer :
  forall (w : World Engine) (move : Move) (threshold : Z) (e' : Engine)
         (info : InfoDict),
    analyse (w_engine w) (push (w_board w) move) = (e', Ok info) ->
    info_score info = None ->
    evaluate_move_criticality move threshold w =
      ({| w_engine := e'; w_board := push (w_board w) move |}, Raise KeyError).
Proof.
  intros w move threshold e' info Hcall Hscore. rewrite evaluate_unfold.
  step_bind. rewrite probe_run, Hcall. cbn [reported_cp].
  by rewrite Hscore.
Qed.

(** C6: on an engine whose answers carry a score, when the position has no
    legal move other than the candidate, the verdict is (false, 0). *)
Theorem evaluate_without_alternative :
  answers_carry_score ->
  forall (w : World Engine) (move : Move) (threshold : Z),
    (forall alt, alt ∈ legal_moves (position (w_board w)) -> alt = move) ->
    exists e',
      evaluate_move_criticality move threshold w =
        ({| w_engine := e'; w_board := w_board w |}, Ok (false, 0)).
Proof.
  intros Hscore w move threshold Honly. rewrite (evaluate_run Hscore). cbn zeta.
  set (table := observed_scores _ _ _).
  pose proof (observed_scores_moves
    (score_call (w_engine w) (push (w_board w) move)).1 (w_board w)
    (legal_moves (position (w_board w)))) as Hmoves. fold table in Hmoves.
  exists table.1. unfold verdict.
  destruct (filter _ table.2) as [|[a s] rest] eqn:Hfilter; [done|].
  assert ((a, s) ∈ filter (fun ms => ms.1 <> move) table.2) as Hin.
  { rewrite Hfilter. by left. }
  apply list_elem_of_filter in Hin as [Hne Hin]. destruct Hne. cbn. apply Honly.
  rewrite <- Hmoves. apply list_elem_of_fmap. by exists (a, s).
Qed.

(** C9: the board the caller observes after the evaluator returns is the board
    it passed in, every push having been undone by a pop; and the evaluator
    does return when the engine's answers carry a score. *)
Theorem evaluate_leaves_board_unchanged :
  forall (w : World Engine) (move : Move) (threshold : Z),
    (forall w' v, evaluate_move_criticality move threshold w = (w', Ok v) ->
                  w_board w' = w_board w) /\
    (answers_carry_score ->
     exists w' v, evaluate_move_criticality move threshold w = (w', Ok v)).
Proof.
  intros w move threshold. split.
  - intros w' v. apply evaluate_restores_on_return.
  - intros Hscore. by apply evaluate_returns.
Qed.

End EvaluateFacts.

(** ** Failed engine calls *)

Section Neutral.
Context `{CL : ChessLib} (EP : EnginePort).

(** The neutral answer scores 0. *)
Lemma reported_cp_neutral : reported_cp (Ok neutral_info) = Ok 0.
Proof. reflexivity. Qed.

(** A probe cannot tell a failed call from a neutral answer. *)
Lemma probe_neutralise move (w : World (@Engine CL EP)) :
  probe (EP := EP) move w = probe (EP := neutralise EP) move w.
Proof.
  rewrite !probe_run. cbn [analyse neutralise Engine].
  destruct (@analyse CL EP (w_engine w) (push (w_board w) move)) as [e' [info|x]];
    reflexivity.
Qed.

(** Nor can the scan. *)
Lemma scan_neutralise alts acc (w : World (@Engine CL EP)) :
  scan_alternatives (EP := EP) alts acc w =
  scan_alternatives (EP := neutralise EP) alts acc w.
Proof.
  revert acc w. induction alts as [|alt rest IH]; intros acc w; [reflexivity|].
  rewrite !scan_unfold. step_bind. rewrite <- probe_neutralise.
  destruct (probe alt w) as [w1 [s|x]]; [apply IH | reflexivity].
Qed.

(** C4: an engine call that fails is scored 0, and only that call: the
    evaluator behaves on [EP] exactly as on the engine whose failures are
    replaced by neutral answers, so a failure aborts nothing; no exception
    leaves the evaluator when the engine's answers carry a score. *)
Theorem evaluate_counts_failed_call_as_zero :
  forall (w : World (@Engine CL EP)) (move : Move) (threshold : Z),
    (forall e' x, analyse (w_engine w) (w_board w) = (e', Raise x) ->
       analyse_white_cp w = ({| w_engine := e'; w_board := w_board w |}, Ok 0)) /\
    evaluate_move_criticality (EP := EP) move threshold w =
      evaluate_move_criticality (EP := neutralise EP) move threshold w /\
    (answers_carry_score ->
     exists w' v, evaluate_move_criticality (EP := EP) move threshold w = (w', Ok v)).
Proof.
  intros w move threshold. split; [|split].
  - intros e' x Hcall.
    unfold analyse_white_cp, engine_analyse; unfold_monad.
    by rewrite Hcall.
  - rewrite !evaluate_unfold. step_bind.
    rewrite <- probe_neutralise.
    destruct (probe move w) as [w1 [s|x]]; [|reflexivity].
    cbn [get_board]. rewrite <- scan_neutralise.
    by destruct (scan_alternatives _ _ w1) as [w2 [table|x]].
  - intros Hscore. by apply evaluate_returns.
Qed.

End Neutral.

(** ** The candidate selector *)

Section SortedFacts.
Context {A : Type} (key : A -> Z).

(** Insertion keeps the elements. *)
Lemma insert_desc_perm x l : insert_desc key x l ≡ₚ x :: l.
Proof.
  induction l as [|y l IH]; cbn; [done|].
  case_decide; [done|]. rewrite IH. apply Permutation_swap.
Qed.

(** Sorting keeps the elements. *)
Lemma sorted_reverse_perm l : sorted_reverse key l ≡ₚ l.
Proof.
  induction l as [|x l IH]; cbn; [done|].
  fold (sorted_reverse key l). by rewrite insert_desc_perm, IH.
Qed.

(** Insertion keeps the list descending. *)
Lemma insert_desc_sorted x l :
  StronglySorted (descending key) l -> StronglySorted (descending key) (insert_desc key x l).
Proof.
  induction 1 as [|y l Hl IH Hy]; cbn.
  - repeat constructor.
  - case_decide as Hle.
    + constructor; [by constructor|]. constructor; [done|].
      eapply Forall_impl; [exact Hy|]. unfold descending. intros z ?. lia.
    + constructor; [done|]. rewrite insert_desc_perm. constructor; [|done].
      unfold descending. lia.
Qed.

(** The sorted list is descending. *)
Lemma sorted_reverse_sorted l : StronglySorted (descending key) (sorted_reverse key l).
Proof.
  induction l as [|x l IH]; cbn; [constructor|]. by apply insert_desc_sorted.
Qed.

(** Insertion puts [x] before the elements of its own key. *)
Lemma insert_desc_filter (k : Z) x l :
  filter (fun y => key y = k) (insert_desc key x l) =
  filter (fun y => key y = k) (x :: l).
Proof.
  induction l as [|y l IH]; cbn [insert_desc]; [done|].
  case_decide as Hle; [done|].
  rewrite (filter_cons _ y), IH, !(filter_cons _ x), (filter_cons _ y).
  repeat case_decide; try done; lia.
Qed.

(** The sort is stable: elements of equal key keep the order of the input. *)
Lemma sorted_reverse_stable (k : Z) l :
  filter (fun y => key y = k) (sorted_reverse key l) =
  filter (fun y => key y = k) l.
Proof.
  induction l as [|x l IH]; [done|].
  change (sorted_reverse key (x :: l)) with (insert_desc key x (sorted_reverse key l)).
  by rewrite insert_desc_filter, !(filter_cons _ x), IH.
Qed.

(** Two descending lists that agree on the elements of every key, order
    included, are the same list: a stable descending sort has one result. *)
Lemma stable_descending_unique l1 l2 :
  StronglySorted (descending key) l1 ->
  StronglySorted (descending key) l2 ->
  (forall k : Z, filter (fun y => key y = k) l1 = filter (fun y => key y = k) l2) ->
  l1 = l2.
Proof.
  intros Hl1. revert l2. induction Hl1 as [|x l1 Hl1 IH Hx]; intros l2 Hl2 Hsame.
  - destruct l2 as [|y l2]; [done|]. specialize (Hsame (key y)).
    rewrite filter_cons, decide_True in Hsame by done. done.
  - destruct Hl2 as [|y l2 Hl2 Hy].
    + specialize (Hsame (key x)). rewrite filter_cons, decide_True in Hsame by done. done.
    + assert (key x = key y) as Hkey.
      { assert (x ∈ y :: l2) as Hxin.
        { eapply (list_elem_of_filter (fun z => key z = key x)).
          rewrite <- Hsame, filter_cons, decide_True by done. by left. }
        assert (y ∈ x :: l1) as Hyin.
        { eapply (list_elem_of_filter (fun z => key z = key y)).
          rewrite Hsame, filter_cons, decide_True by done. by left. }
        rewrite Forall_forall in Hx, Hy. unfold descending in Hx, Hy.
        apply elem_of_cons in Hxin as [-> | Hxin]; [done|].
        apply elem_of_cons in Hyin as [-> | Hyin]; [done|].
        specialize (Hx _ Hyin). specialize (Hy _ Hxin). lia. }
      pose proof (Hsame (key x)) as Hhead.
      rewrite !filter_cons, decide_True, (decide_True (P := key y = key x)) in Hhead by done.
      injection Hhead as <- Htail. f_equal. apply IH; [done|].
      intros k. destruct (decide (key x = k)) as [<- | Hne]; [done|].
      specialize (Hsame k). by rewrite !filter_cons, !decide_False in Hsame by done.
Qed.

End SortedFacts.

Section Candidates.
Context `{CL : ChessLib} `{EP : !EnginePort} `{XP : !ExplorerPort}.

(** The loop over the explorer entries appends the moves that parse. *)
Lemma parse_database_moves_spec b entries acc :
  parse_database_moves b entries acc = acc ++ omap (entry_move b) entries.
Proof.
  revert acc. induction entries as [|md entries IH]; intros acc; cbn.
  - by rewrite app_nil_r.
  - unfold entry_move. destruct (md_san md) as [text|]; [|apply IH].
    case_decide; [apply IH|].
    destruct (parse_san _ text) as [move|]; [|apply IH].
    rewrite IH. by rewrite <- app_assoc.
Qed.

(** The loop over the engine lines appends the fresh first moves. *)
Lemma append_engine_moves_spec infos acc :
  append_engine_moves infos acc = acc ++ fresh_moves acc (omap first_move infos).
Proof.
  revert acc. induction infos as [|info infos IH]; intros acc; cbn.
  - by rewrite app_nil_r.
  - unfold first_move at 1. destruct (info_pv info) as [[|pv0 pv]|]; try apply IH.
    cbn. case_decide; [apply IH|]. rewrite IH. by rewrite <- app_assoc.
Qed.

(** Appending fresh moves keeps a list free of duplicates. *)
Lemma fresh_moves_NoDup seen ms : NoDup seen -> NoDup (seen ++ fresh_moves seen ms).
Proof.
  revert seen. induction ms as [|m ms IH]; intros seen Hseen; cbn.
  - by rewrite app_nil_r.
  - case_decide as Hin; [by apply IH|].
    rewrite cons_middle, app_assoc. apply IH.
    apply NoDup_app. split; [done|]. split; [|apply NoDup_singleton].
    intros x Hx ->%list_elem_of_singleton. done.
Qed.

(** The selector, in closed form. *)
Lemma get_variation_candidates_run (n : nat) (w : World Engine) :
  get_variation_candidates n w =
  let b := w_board w in
  let from_database := database_candidates b n in
  if decide (length from_database < n)%nat then
    let '(e', r) := analyse_multipv (w_engine w) b n in
    let lines := match r with Ok infos => infos | Raise _ => [] end in
    ({| w_engine := e'; w_board := b |},
     Ok (take n (from_database ++ fresh_moves from_database (omap first_move lines))))
  else (w, Ok (take n from_database)).
Proof.
  unfold get_variation_candidates, database_candidates, explorer_entries.
  unfold_monad. cbn [get_board].
  set (from_database := omap _ _).
  assert (match query_lichess_openings (fen (position (w_board w))) with
          | Some {| ed_moves := Some moves |} =>
              parse_database_moves (w_board w)
                (take n (sorted_reverse total_games moves)) []
          | _ => []
          end = from_database) as ->.
  { unfold from_database.
    destruct (query_lichess_openings _) as [[[entries|]]|];
      [by rewrite parse_database_moves_spec | by destruct n ..]. }
  case_decide; [|done].
  unfold try_except, engine_analyse_multipv.
  destruct (analyse_multipv _ _ n) as [e' [infos|x]]; cbn.
  - by rewrite append_engine_moves_spec.
  - by rewrite app_nil_r.
Qed.

(** A move is fresh when it occurs in the list and was not seen. *)
Lemma elem_of_fresh_moves seen ms m :
  m ∈ fresh_moves seen ms <-> m ∈ ms /\ m ∉ seen.
Proof.
  revert seen. induction ms as [|m' ms IH]; intros seen; cbn.
  - split; [by intros ?%elem_of_nil | by intros [?%elem_of_nil _]].
  - case_decide as Hin.
    + rewrite IH, elem_of_cons. split.
      * intros [Hm Hseen]. split; [by right | done].
      * intros [[-> | Hm] Hseen]; [done | by split].
    + rewrite !elem_of_cons, IH, elem_of_app, list_elem_of_singleton.
      destruct (decide (m = m')) as [-> | Hne].
      * split; [intros _; split; [by left | done] | by left].
      * split.
        -- intros [? | [Hm Hseen]]; [done|]. split; [by right|].
           intros Hs. apply Hseen. by left.
        -- intros [[? | Hm] Hseen]; [done|]. right. split; [done|].
           by intros [? | ?].
Qed.

(** The explorer's candidates read off the port: the entries of the answer to
    the request for the board's FEN, none when the request failed or the
    answer has no ["moves"], ranked by white + draws + black. *)
Lemma database_candidates_read (b : Board) (n : nat) :
  database_candidates b n =
  omap (entry_move b)
    (take n
       (sorted_reverse
          (fun x => default 0 (md_white x) + default 0 (md_draws x) + default 0 (md_black x))
          match requests_get_json (fen (position b)) with
          | Ok {| ed_moves := Some listed |} => listed
          | _ => []
          end)).
Proof.
  unfold database_candidates, explorer_entries, query_lichess_openings.
  change total_games with
    (fun x => default 0 (md_white x) + default 0 (md_draws x) + default 0 (md_black x)).
  by destruct (requests_get_json (fen (position b))) as [[[listed|]]|x].
Qed.

(** C7: the entries the explorer returned for the board's position are ranked
    by white + draws + black, an absent count being 0: [ranked] holds the same
    entries, most played first, entries of equal total in the order listed.
    The first [n] of them are taken, and those whose text is absent, empty or
    does not parse on the board are dropped.  Only when fewer than [n] moves
    result is the engine asked, for [n] lines on the same board, and the first
    move of each line is appended unless it is present already; the merged
    list, database moves first, is cut to [n].  When the database yields [n]
    moves the world, engine included, is left untouched. *)
Theorem get_variation_candidates_merges :
  forall (n : nat) (w : World Engine),
    let b := w_board w in
    let games (x : MoveData) : Z :=
      default 0 (md_white x) + default 0 (md_draws x) + default 0 (md_black x) in
    let entries :=
      match requests_get_json (fen (position b)) with
      | Ok {| ed_moves := Some listed |} => listed
      | _ => []
      end in
    exists ranked : list MoveData,
      ranked ≡ₚ entries /\
      StronglySorted (descending games) ranked /\
      (forall k : Z,
         filter (fun x => games x = k) ranked = filter (fun x => games x = k) entries) /\
      let from_database := omap (entry_move b) (take n ranked) in
      let engine := analyse_multipv (w_engine w) b n in
      let lines := match engine.2 with Ok infos => infos | Raise _ => [] end in
      get_variation_candidates n w =
        if decide (length from_database < n)%nat then
          ({| w_engine := engine.1; w_board := b |},
           Ok (take n (from_database ++
                       fresh_moves from_database (omap first_move lines))))
        else (w, Ok (take n from_database)).
Proof.
  intros n w b games entries. exists (sorted_reverse games entries).
  split; [apply sorted_reverse_perm|]. split; [apply sorted_reverse_sorted|].
  split; [intros k; apply sorted_reverse_stable|].
  intros from_database engine lines.
  rewrite get_variation_candidates_run. cbn zeta.
  rewrite database_candidates_read. fold b. fold entries. fold games. fold from_database.
  case_decide; [|done]. subst lines engine.
  by destruct (analyse_multipv (w_engine w) b n) as [e' r].
Qed.

(** C3, as the code has it: the selector returns at most [n] moves, and they
    are pairwise distinct provided the moves it parsed from the explorer's
    entries are; the engine's moves never add a duplicate. *)
Theorem get_variation_candidates_bounded_and_distinct :
  forall (n : nat) (w : World Engine),
    exists w' ms,
      get_variation_candidates n w = (w', Ok ms) /\
      (length ms <= n)%nat /\
      (NoDup (database_candidates (w_board w) n) -> NoDup ms).
Proof.
  intros n w. rewrite get_variation_candidates_run. cbn zeta.
  set (from_database := database_candidates (w_board w) n).
  case_decide.
  - destruct (analyse_multipv _ _ n) as [e' r]. eexists _, _. split; [done|]. split.
    + rewrite length_take. lia.
    + intros Hdb. eapply sublist_NoDup; [|apply sublist_take].
      by apply fresh_moves_NoDup.
  - eexists _, _. split; [done|]. split.
    + rewrite length_take. lia.
    + intros Hdb. eapply sublist_NoDup; [done | apply sublist_take].
Qed.

End Candidates.

(** ** The variation walker *)

Section WalkFacts.
Context `{CL : ChessLib} `{EP : !EnginePort}.

(** A copy has the contents of the original. *)
Lemma copy_eq (b : Board) : copy b = b.
Proof. by destruct b. Qed.

(** The walk is the first ply, the loop, and the explanation. *)
Lemma walk_unfold candidate_move variation_depth threshold w :
  walk candidate_move variation_depth threshold w =
  (l ← walk_loop threshold (seq 1 (variation_depth - 1))
         (first_ply candidate_move threshold w).2;
   x ← generate_plan_explanation;
   mret (l, x)) (first_ply candidate_move threshold w).1.
Proof.
  unfold walk, first_ply; unfold_monad.
  destruct (evaluate_move_criticality _ _ w) as [w1 [[is_crit score_diff]|x]];
    reflexivity.
Qed.

(** The explanation always returns, and leaves the board alone. *)
Lemma generate_plan_explanation_returns w :
  exists e' x,
    generate_plan_explanation w = ({| w_engine := e'; w_board := w_board w |}, Ok x).
Proof.
  unfold generate_plan_explanation, engine_analyse, getitem_score; unfold_monad.
  destruct (analyse _ _) as [e' [info|x]]; cbn.
  - destruct (info_score info); cbn; by eexists _, _.
  - by eexists _, _.
Qed.

(** A pass that cannot record a move ends the loop. *)
Lemma walk_step_stops threshold l w :
  walk_stops_here threshold w l ->
  exists w', try_except (walk_step threshold l) (fun _ => ret None) w = (w', Ok None).
Proof.
  unfold try_except.
  intros [(e' & x & Hcall) | [(e' & info & Hcall & Hpv) | (w' & x & Hstep)]].
  - unfold walk_step, engine_analyse; step_bind. rewrite Hcall. by eexists.
  - unfold walk_step, engine_analyse; step_bind. rewrite Hcall.
    destruct Hpv as [-> | ->]; by eexists.
  - rewrite Hstep. by eexists.
Qed.

(** The loop always returns, with at most one more entry per pass. *)
Lemma walk_loop_returns threshold iterations l w :
  exists w' l',
    walk_loop threshold iterations l w = (w', Ok l') /\
    (length l <= length l' <= length l + length iterations)%nat.
Proof.
  revert l w. induction iterations as [|i rest IH]; intros l w; cbn [walk_loop].
  - eexists _, _. split; [done|]. cbn. lia.
  - step_bind; unfold try_except.
    destruct (walk_step threshold l w) as [w1 [[l1|]|x]] eqn:Hstep.
    + destruct (IH l1 w1) as (w' & l' & -> & Hlen). eexists _, _. split; [done|].
      assert (length l1 = S (length l)) as Hl1; [|cbn; lia].
      revert Hstep. unfold walk_step; step_bind.
      destruct (engine_analyse w) as [w2 [info|x]]; [|done].
      destruct (info_pv info) as [[|next pv]|]; try done.
      destruct (evaluate_move_criticality _ _ _) as [w3 [[is_crit score_diff]|x]];
        [|done].
      cbn. intros [= _ <-]. rewrite length_app. cbn. lia.
    + eexists _, _. split; [done|]. cbn. lia.
    + eexists _, _. split; [done|]. cbn. lia.
Qed.

(** A pass that continues has appended one entry. *)
Lemma walk_step_appends threshold l w w1 l1 :
  walk_step threshold l w = (w1, Ok (Some l1)) -> length l1 = S (length l).
Proof.
  unfold walk_step; step_bind.
  destruct (engine_analyse w) as [w2 [info|x]]; [|done].
  destruct (info_pv info) as [[|next pv]|]; try done.
  destruct (evaluate_move_criticality _ _ _) as [w3 [[is_crit score_diff]|x]];
    [|done].
  cbn. intros [= _ <-]. rewrite length_app. cbn. lia.
Qed.

(** [k] successful passes append [k] entries. *)
Lemma run_steps_length threshold k w l w1 l1 :
  run_steps threshold k w l = Some (w1, l1) -> length l1 = (length l + k)%nat.
Proof.
  revert w l. induction k as [|k IH]; intros w l; cbn [run_steps].
  - intros [= _ <-]. lia.
  - destruct (walk_step threshold l w) as [w2 [[l2|]|x]] eqn:Hstep; try done.
    intros Hrun. apply IH in Hrun. apply walk_step_appends in Hstep. lia.
Qed.

(** After [k] successful passes and a pass that cannot record, the loop
    returns the list of the [k] passes. *)
Lemma walk_loop_stops threshold k iterations w l w1 l1 :
  run_steps threshold k w l = Some (w1, l1) ->
  walk_stops_here threshold w1 l1 ->
  (k < length iterations)%nat ->
  exists w', walk_loop threshold iterations l w = (w', Ok l1).
Proof.
  revert iterations w l. induction k as [|k IH]; intros iterations w l; cbn [run_steps].
  - intros [= <- <-] Hstop Hlen. destruct iterations as [|i rest]; [cbn in Hlen; lia|].
    cbn [walk_loop]. step_bind.
    destruct (walk_step_stops _ _ _ Hstop) as [w' ->]. by eexists.
  - destruct (walk_step threshold l w) as [w2 [[l2|]|x]] eqn:Hstep; try done.
    intros Hrun Hstop Hlen. destruct iterations as [|i rest]; [cbn in Hlen; lia|].
    cbn [walk_loop]. step_bind; unfold try_except. rewrite Hstep.
    apply (IH rest w2 l2 Hrun Hstop). cbn in Hlen. lia.
Qed.

(** The dictionary built from a walk that returned. *)
Lemma analyze_variation_run start_board candidate_move variation_depth threshold e w l x :
  walk candidate_move variation_depth threshold
    {| w_engine := e; w_board := copy start_board |} = (w, Ok (l, x)) ->
  analyze_variation start_board candidate_move variation_depth threshold e =
    (w_engine w,
     Ok {| moves := map (fun e => e.1.1) l;
           critical_info := l;
           critical_count := length (filter (fun e => e.1.2 = true) l);
           final_board := w_board w;
           explanation := x |}).
Proof. unfold analyze_variation. by intros ->. Qed.

(** The walk returns what its loop returned. *)
Lemma walk_returns candidate_move variation_depth threshold w w1 l :
  walk_loop threshold (seq 1 (variation_depth - 1))
    (first_ply candidate_move threshold w).2
    (first_ply candidate_move threshold w).1 = (w1, Ok l) ->
  exists e' x,
    walk candidate_move variation_depth threshold w =
      ({| w_engine := e'; w_board := w_board w1 |}, Ok (l, x)).
Proof.
  intros Hloop. rewrite walk_unfold. step_bind. rewrite Hloop.
  destruct (generate_plan_explanation_returns w1) as (e' & x & ->). by eexists _, _.
Qed.

(** C8: for a depth of at least 1 the walk returns, and its record has at most
    [variation_depth] entries. *)
Theorem analyze_variation_records_at_most_depth :
  forall (start_board : Board) (candidate_move : Move) (variation_depth : nat)
         (threshold : Z) (e : Engine),
    (1 <= variation_depth)%nat ->
    exists e' r,
      analyze_variation start_board candidate_move variation_depth threshold e =
        (e', Ok r) /\
      (length (critical_info r) <= variation_depth)%nat /\
      length (moves r) = length (critical_info r).
Proof.
  intros start_board candidate_move variation_depth threshold e Hdepth.
  set (w := {| w_engine := e; w_board := copy start_board |}).
  destruct (walk_loop_returns threshold (seq 1 (variation_depth - 1))
              (first_ply candidate_move threshold w).2
              (first_ply candidate_move threshold w).1) as (w1 & l & Hloop & Hlen).
  destruct (walk_returns _ _ _ _ _ _ Hloop) as (e' & x & Hwalk).
  rewrite (analyze_variation_run _ _ _ _ _ _ _ _ Hwalk).
  eexists _, _. split; [done|]. cbn [critical_info moves]. split.
  - rewrite length_seq in Hlen. unfold first_ply in Hlen.
    destruct (evaluate_move_criticality _ _ w) as [w2 r]. cbn in Hlen. lia.
  - by rewrite length_map.
Qed.

(** C5: if, after the first ply and [k] further plies were recorded, the
    request for the next move fails, the engine's line is absent or empty, or
    handling the move raises, then the walk returns without raising, and its
    record is the list of the [k + 1] plies recorded so far; an empty line
    after one further ply gives a record of two entries. *)
Theorem analyze_variation_stops_with_recorded_plies :
  forall (start_board : Board) (candidate_move : Move) (variation_depth : nat)
         (threshold : Z) (e : Engine) (k : nat) (w1 : World Engine) (l1 : list MoveInfo),
    let first := first_ply candidate_move threshold
                   {| w_engine := e; w_board := copy start_board |} in
    run_steps threshold k first.1 first.2 = Some (w1, l1) ->
    walk_stops_here threshold w1 l1 ->
    (S k < variation_depth)%nat ->
    exists e' r,
      analyze_variation start_board candidate_move variation_depth threshold e =
        (e', Ok r) /\
      critical_info r = l1 /\
      moves r = map (fun e => e.1.1) l1 /\
      length (critical_info r) = S k.
Proof.
  intros start_board candidate_move variation_depth threshold e k w1 l1 first
    Hrun Hstop Hdepth.
  destruct (walk_loop_stops threshold k (seq 1 (variation_depth - 1)) _ _ _ _ Hrun Hstop)
    as [w' Hloop]; [rewrite length_seq; lia|].
  destruct (walk_returns _ _ _ _ _ _ Hloop) as (e' & x & Hwalk).
  rewrite (analyze_variation_run _ _ _ _ _ _ _ _ Hwalk).
  eexists _, _. split; [done|]. cbn [critical_info moves]. split; [done|]. split; [done|].
  apply run_steps_length in Hrun. rewrite Hrun. subst first. unfold first_ply.
  by destruct (evaluate_move_criticality _ _ _) as [w2 r].
Qed.

(** The texts of a line extended by one move. *)
Lemma line_texts_snoc b line move :
  line_texts b (line ++ [move]) =
  line_texts b line ++ [san_or_str (foldl push b line) move].
Proof.
  revert b. induction line as [|m line IH]; intros b; cbn; [done|]. by rewrite IH.
Qed.

(** One text per move. *)
Lemma line_texts_length b line : length (line_texts b line) = length line.
Proof. revert b. induction line as [|m line IH]; intros b; cbn; [done|]. by rewrite IH. Qed.

(** With scored answers a pass either leaves the board alone or records
    one move and plays it. *)
Lemma walk_step_cases threshold l w :
  answers_carry_score ->
  match walk_step threshold l w with
  | (w', Ok (Some l')) =>
      exists next is_crit score_diff,
        w_board w' = push (w_board w) next /\
        l' = l ++ [(san_or_str (w_board w) next, is_crit, score_diff)]
  | (w', _) => w_board w' = w_board w
  end.
Proof.
  intros Hscore. unfold walk_step, engine_analyse; step_bind.
  destruct (analyse _ _) as [e1 [info|x]]; [|done].
  destruct (info_pv info) as [[|next pv]|]; try done.
  rewrite (evaluate_run Hscore). cbn.
  destruct (verdict _ _ _ _) as [is_crit score_diff]. by eexists _, _, _.
Qed.

(** The loop keeps the board and the recorded texts in step with the line
    played. *)
Lemma walk_loop_tracks threshold start iterations l w line w' l' :
  answers_carry_score ->
  w_board w = foldl push start line ->
  map (fun e => e.1.1) l = line_texts start line ->
  walk_loop threshold iterations l w = (w', Ok l') ->
  exists more,
    w_board w' = foldl push start (line ++ more) /\
    map (fun e => e.1.1) l' = line_texts start (line ++ more).
Proof.
  intros Hscore. revert l w line.
  induction iterations as [|i rest IH]; intros l w line Hboard Htexts; cbn [walk_loop].
  - intros [= <- <-]. exists []. by rewrite app_nil_r.
  - step_bind; unfold try_except.
    pose proof (walk_step_cases threshold l w Hscore) as Hcases.
    destruct (walk_step threshold l w) as [w1 [[l1|]|x]].
    + destruct Hcases as (next & is_crit & score_diff & Hb1 & ->).
      intros Hloop.
      assert (w_board w1 = foldl push start (line ++ [next])) as Hb1'.
      { by rewrite Hb1, Hboard, foldl_app. }
      assert (map (fun e => e.1.1)
                (l ++ [(san_or_str (w_board w) next, is_crit, score_diff)]) =
              line_texts start (line ++ [next])) as Ht1.
      { by rewrite map_app, Htexts, line_texts_snoc, Hboard. }
      destruct (IH _ _ _ Hb1' Ht1 Hloop) as (more & Hb & Ht).
      exists (next :: more). by rewrite cons_middle, app_assoc.
    + intros [= <- <-]. exists []. rewrite app_nil_r. by rewrite Hcases.
    + intros [= <- <-]. exists []. rewrite app_nil_r. by rewrite Hcases.
Qed.

(** C10: the board returned is the start board with a line of moves applied
    in order, one move for each recorded entry, the candidate first, and the
    texts recorded are the texts of these moves along the line; the start
    board itself is only read.  The engine's answers are taken to carry a
    score. *)
Theorem analyze_variation_final_board_is_recorded_line :
  answers_carry_score ->
  forall (start_board : Board) (candidate_move : Move) (variation_depth : nat)
         (threshold : Z) (e : Engine),
    exists e' r line,
      analyze_variation start_board candidate_move variation_depth threshold e =
        (e', Ok r) /\
      final_board r = foldl push start_board (candidate_move :: line) /\
      position (final_board r) =
        foldl apply_move (position start_board) (candidate_move :: line) /\
      moves r = line_texts start_board (candidate_move :: line) /\
      length (critical_info r) = length (candidate_move :: line).
Proof.
  intros Hscore start_board candidate_move variation_depth threshold e.
  set (w := {| w_engine := e; w_board := copy start_board |}).
  destruct (walk_loop_returns threshold (seq 1 (variation_depth - 1))
              (first_ply candidate_move threshold w).2
              (first_ply candidate_move threshold w).1) as (w1 & l & Hloop & _).
  destruct (walk_returns _ _ _ _ _ _ Hloop) as (e' & x & Hwalk).
  rewrite (analyze_variation_run _ _ _ _ _ _ _ _ Hwalk).
  revert Hloop. unfold first_ply. rewrite (evaluate_run Hscore). cbn zeta.
  destruct (verdict _ _ _ _) as [is_crit score_diff].
  cbn [fst snd w_board w_engine w]. rewrite copy_eq. intros Hloop.
  eapply (walk_loop_tracks _ start_board _ _ _ [candidate_move]) in Hloop
    as (line & Hboard & Htexts); [|done..].
  cbn [app] in Hboard, Htexts.
  eexists _, _, line. split; [done|]. cbn [final_board moves critical_info w_board].
  split; [done|]. split; [|split; [done|]].
  - rewrite Hboard. clear. generalize (candidate_move :: line). intros ms.
    revert start_board. induction ms as [|m ms IH]; intros b; [done|]. cbn. by rewrite IH.
  - rewrite <- (line_texts_length start_board (candidate_move :: line)), <- Htexts.
    by rewrite length_map.
Qed.

End WalkFacts.

(** ** Runs on the small game *)

Section Runs.
Import Nim.

(** The stubs built by [by_tokens] answer with a score. *)
Ltac stub_scored := intros ? ? ? ? [= _ <-]; by eexists.

(** C1 on a run: the candidate scores 100, its only alternative 40, and with
    threshold 60 the margin 60 equals the threshold: critical. *)
Lemma evaluate_margin_run :
  evaluate_move_criticality (EP := hundred_or_forty) 1%nat 60
    {| w_engine := 0%nat; w_board := board_of 2 White |} =
  ({| w_engine := 3%nat; w_board := board_of 2 White |}, Ok (true, 60)).
Proof.
  destruct (evaluate_margin_against_best_alternative (EP := hundred_or_forty)
              ltac:(stub_scored)
              {| w_engine := 0%nat; w_board := board_of 2 White |} 1%nat 60)
    as (best & Hrun & (alt & Hne & _ & Hrow) & _).
  - by left.
  - exists 2%nat. split; [by right; left | done].
  - vm_compute in Hrow.
    apply elem_of_cons in Hrow as [[= -> _] | Hrow]; [done|].
    apply list_elem_of_singleton in Hrow as [= _ ->].
    exact Hrun.
Defined.

(** The same run with threshold 61: the margin is one below, not critical. *)
Example evaluate_margin_one_below_threshold :
  evaluate_move_criticality (EP := hundred_or_forty) 1%nat 61
    {| w_engine := 0%nat; w_board := board_of 2 White |} =
  ({| w_engine := 3%nat; w_board := board_of 2 White |}, Ok (false, 60)).
Proof. reflexivity. Qed.

(** C2 on a run with Black to move.  Taking one token leaves Black 200
    centipawns better off than taking two, so for Black it is forced by more
    than the threshold 50; the evaluator answers not critical with margin
    -200.  Taking two is the worse move for Black, and the evaluator answers
    critical with margin 200: it compares White's scores whoever moves. *)
Theorem evaluate_black_to_move_inverts :
  let w := {| w_engine := 0%nat; w_board := board_of 2 Black |} in
  let table :=
    (observed_scores (EP := good_for_black) 1%nat (w_board w)
       (legal_moves (position (w_board w)))).2 in
  turn (position (w_board w)) = Black /\
  table = [(1%nat, -200); (2%nat, 0)] /\
  forced_for Black 1%nat 50 (-200) table /\
  (evaluate_move_criticality (EP := good_for_black) 1%nat 50 w).2 = Ok (false, -200) /\
  ~ forced_for Black 2%nat 50 0 table /\
  (evaluate_move_criticality (EP := good_for_black) 2%nat 50 w).2 = Ok (true, 200).
Proof.
  cbv zeta. split; [reflexivity|]. split; [reflexivity|].
  change (observed_scores _ _ _).2 with [(1%nat, -200); (2%nat, 0)].
  split; [|split; [reflexivity|split; [|reflexivity]]].
  - intros alt s Hin Hne.
    apply elem_of_cons in Hin as [[= -> ->] | Hin]; [done|].
    apply list_elem_of_singleton in Hin as [= -> ->]. cbn. lia.
  - intros Hforced. specialize (Hforced 1%nat (-200)). cbn in Hforced.
    assert (50 <= -0 - - -200) as Habs; [|lia].
    apply Hforced; [by left | done].
Qed.

(** C6 on a run: one token left, one legal move. *)
Lemma evaluate_without_alternative_run :
  exists e',
    evaluate_move_criticality (EP := hundred_or_forty) 1%nat 50
      {| w_engine := 0%nat; w_board := board_of 1 White |} =
    ({| w_engine := e'; w_board := board_of 1 White |}, Ok (false, 0)).
Proof.
  apply (evaluate_without_alternative (EP := hundred_or_forty) ltac:(stub_scored)
           {| w_engine := 0%nat; w_board := board_of 1 White |} 1%nat 50).
  intros alt Hin. by apply list_elem_of_singleton in Hin.
Defined.

(** C9 on a run. *)
Lemma evaluate_leaves_board_unchanged_run :
  exists w' v,
    evaluate_move_criticality (EP := hundred_or_forty) 1%nat 60
      {| w_engine := 0%nat; w_board := board_of 2 White |} = (w', Ok v) /\
    w_board w' = board_of 2 White.
Proof.
  destruct (evaluate_leaves_board_unchanged (EP := hundred_or_forty)
              {| w_engine := 0%nat; w_board := board_of 2 White |} 1%nat 60)
    as [Hframe Hreturns].
  destruct (Hreturns ltac:(stub_scored)) as (w' & v & Hrun).
  exists w', v. split; [exact Hrun|]. exact (Hframe w' v Hrun).
Defined.

(** C4 on a run: the call on the empty heap fails and counts 0, the other
    calls score 100, so the margin is 100. *)
Lemma evaluate_failed_call_run :
  evaluate_move_criticality (EP := fails_on_empty_heap) 1%nat 50
    {| w_engine := 0%nat; w_board := board_of 2 White |} =
  ({| w_engine := 3%nat; w_board := board_of 2 White |}, Ok (true, 100)).
Proof.
  destruct (evaluate_counts_failed_call_as_zero fails_on_empty_heap
              {| w_engine := 0%nat; w_board := board_of 2 White |} 1%nat 50)
    as (_ & Hneutral & _).
  rewrite Hneutral. reflexivity.
Defined.

(** C3 fails as stated: an explorer answer that lists a move twice comes back
    as two equal candidates. *)
Lemma get_variation_candidates_repeats_database_move :
  get_variation_candidates (EP := hundred_or_forty)
    (XP := explorer_of [entry "one" 10; entry "one" 5]) 2
    {| w_engine := 0%nat; w_board := board_of 2 White |} =
  ({| w_engine := 0%nat; w_board := board_of 2 White |}, Ok [1%nat; 1%nat]) /\
  ~ NoDup [1%nat; 1%nat].
Proof.
  split; [reflexivity|]. intros Hdup. apply NoDup_cons in Hdup as [Hin _].
  apply Hin. by left.
Qed.

(** C3 as the code has it, on a run with two distinct explorer moves. *)
Lemma get_variation_candidates_distinct_run :
  exists w' ms,
    get_variation_candidates (EP := hundred_or_forty)
      (XP := explorer_of [entry "one" 5; entry "two" 10]) 2
      {| w_engine := 0%nat; w_board := board_of 2 White |} = (w', Ok ms) /\
    (length ms <= 2)%nat /\ NoDup ms.
Proof.
  destruct (get_variation_candidates_bounded_and_distinct (EP := hundred_or_forty)
              (XP := explorer_of [entry "one" 5; entry "two" 10]) 2
              {| w_engine := 0%nat; w_board := board_of 2 White |})
    as (w' & ms & Hrun & Hlen & Hdistinct).
  exists w', ms. split; [exact Hrun|]. split; [exact Hlen|]. apply Hdistinct.
  change (NoDup [2%nat; 1%nat]).
  apply NoDup_cons. split; [|apply NoDup_singleton].
  intros Hin. by apply list_elem_of_singleton in Hin.
Defined.

(** An entry that does not parse is dropped, and the engine fills the gap. *)
Example get_variation_candidates_engine_fills :
  get_variation_candidates (EP := hundred_or_forty)
    (XP := explorer_of [entry "one" 5; entry "zero" 10]) 2
    {| w_engine := 0%nat; w_board := board_of 2 White |} =
  ({| w_engine := 1%nat; w_board := board_of 2 White |}, Ok [1%nat; 2%nat]).
Proof. reflexivity. Qed.

(** C8 on a run of depth 3. *)
Lemma analyze_variation_depth_run :
  exists e' r,
    analyze_variation (EP := line_ends_at_ply_two) (board_of 5 White) 1%nat 3 50 0%nat =
      (e', Ok r) /\
    (length (critical_info r) <= 3)%nat /\
    length (moves r) = length (critical_info r).
Proof.
  apply (analyze_variation_records_at_most_depth (EP := line_ends_at_ply_two)
           (board_of 5 White) 1%nat 3 50 0%nat).
  lia.
Defined.

(** C5 on a run: the engine's line is empty once two moves are on the board,
    and the walk of depth 5 returns a record of two entries. *)
Lemma analyze_variation_empty_line_run :
  exists e' r,
    analyze_variation (EP := line_ends_at_ply_two) (board_of 5 White) 1%nat 5 50 0%nat =
      (e', Ok r) /\
    moves r = ["one"; "one"] /\
    length (critical_info r) = 2%nat.
Proof.
  edestruct (analyze_variation_stops_with_recorded_plies (EP := line_ends_at_ply_two)
               (board_of 5 White) 1%nat 5 50 0%nat 1)
    as (e' & r & Hrun & Hinfo & Hmoves & Hlen).
  - vm_compute. reflexivity.
  - right. left. eexists _, _. split; [vm_compute; reflexivity | by right].
  - lia.
  - exists e', r. split; [exact Hrun|]. split; [|exact Hlen].
    rewrite Hmoves. reflexivity.
Defined.

(** C10 on a run. *)
Lemma analyze_variation_final_board_run :
  exists e' r line,
    analyze_variation (EP := line_ends_at_ply_two) (board_of 5 White) 1%nat 5 50 0%nat =
      (e', Ok r) /\
    final_board r = foldl push (board_of 5 White) (1%nat :: line) /\
    position (final_board r) =
      foldl apply_move (position (board_of 5 White)) (1%nat :: line) /\
    moves r = line_texts (board_of 5 White) (1%nat :: line) /\
    length (critical_info r) = length (1%nat :: line).
Proof.
  apply (analyze_variation_final_board_is_recorded_line (EP := line_ends_at_ply_two)
           ltac:(stub_scored) (board_of 5 White) 1%nat 5 50 0%nat).
Defined.

(** The White-side reading on the run of C2. *)
Lemma evaluate_critical_iff_white_margin_run :
  exists is_critical margin,
    evaluate_move_criticality (EP := good_for_black) 2%nat 50
      {| w_engine := 0%nat; w_board := board_of 2 Black |} =
      ({| w_engine := 3%nat; w_board := board_of 2 Black |}, Ok (is_critical, margin)) /\
    (is_critical = true <->
     forced_for White 2%nat 50 0 [(1%nat, -200); (2%nat, 0)]).
Proof.
  apply (evaluate_critical_iff_white_margin (EP := good_for_black) ltac:(stub_scored)
           {| w_engine := 0%nat; w_board := board_of 2 Black |} 2%nat 50).
  exists 1%nat. split; [by left | done].
Defined.

(** An engine whose answers have no score: the candidate stays pushed. *)
Lemma evaluate_raises_on_scoreless_answer_run :
  evaluate_move_criticality (EP := scoreless) 1%nat 50
    {| w_engine := 0%nat; w_board := board_of 2 White |} =
  ({| w_engine := 1%nat; w_board := push (board_of 2 White) 1%nat |}, Raise KeyError).
Proof.
  eapply (evaluate_raises_on_scoreless_answer (EP := scoreless)
            {| w_engine := 0%nat; w_board := board_of 2 White |} 1%nat 50 1%nat);
    reflexivity.
Defined.

(** With the explorer unreachable every candidate comes from the engine. *)
Example get_variation_candidates_engine_only :
  get_variation_candidates (EP := hundred_or_forty) (XP := explorer_down) 3
    {| w_engine := 0%nat; w_board := board_of 2 White |} =
  ({| w_engine := 1%nat; w_board := board_of 2 White |}, Ok [1%nat; 2%nat]).
Proof. reflexivity. Qed.

End Runs.

(** ** More of the explorer, the selector, the evaluator and the walker *)

Section TopMoves.

(** [get_top_moves_from_lichess] returns [top_n] entries, or all of them when
    the explorer listed fewer, in descending order of white + draws + black,
    an absent count being 0; they are the most played: with the entries left
    out they make up the explorer's list, and an entry left out has no more
    games than any entry returned.  Without a ["moves"] key the result is
    empty. *)
Theorem get_top_moves_from_lichess_are_most_played :
  forall (data : ExplorerData) (top_n : nat),
    let games (x : MoveData) : Z :=
      default 0 (md_white x) + default 0 (md_draws x) + default 0 (md_black x) in
    let listed := default [] (ed_moves data) in
    let top := get_top_moves_from_lichess data top_n in
    length top = (top_n `min` length listed)%nat /\
    StronglySorted (descending games) top /\
    (ed_moves data = None -> top = []) /\
    exists rest,
      top ++ rest ≡ₚ listed /\
      forall x y, x ∈ top -> y ∈ rest -> games y <= games x.
Proof.
  intros data top_n games listed top. subst top listed.
  unfold get_top_moves_from_lichess.
  change total_games with games.
  destruct (ed_moves data) as [moves|]; cbn [default].
  - pose proof (sorted_reverse_sorted games moves) as Hsorted.
    rewrite <- (take_drop top_n (sorted_reverse games moves)) in Hsorted.
    apply StronglySorted_app in Hsorted as (Hcut & Htop & _).
    split; [by rewrite length_take, (Permutation_length (sorted_reverse_perm games moves))|].
    split; [done|]. split; [done|].
    exists (drop top_n (sorted_reverse games moves)). split.
    + rewrite take_drop. apply sorted_reverse_perm.
    + intros x y Hx Hy. apply (Hcut x y Hx Hy).
  - split; [cbn; lia|]. split; [constructor|]. split; [done|]. exists []. split; [done|].
    by intros x y ?%elem_of_nil.
Qed.

(** Filtering a prefix gives a prefix of the filtered list. *)
Lemma filter_take_prefix {A} (P : A -> Prop) `{forall x, Decision (P x)} (l : list A) n :
  filter P (take n l) `prefix_of` filter P l.
Proof.
  rewrite <- (take_drop n l) at 2. rewrite filter_app. by apply prefix_app_r.
Qed.

(** Entries with the same number of games come back in the order the explorer
    listed them. *)
Theorem get_top_moves_from_lichess_keeps_order_of_ties :
  forall (moves : list MoveData) (top_n : nat) (games : Z),
    filter (fun x => total_games x = games)
      (get_top_moves_from_lichess {| ed_moves := Some moves |} top_n)
    `prefix_of` filter (fun x => total_games x = games) moves.
Proof.
  intros moves top_n games. unfold get_top_moves_from_lichess. cbn [ed_moves].
  rewrite <- (sorted_reverse_stable total_games games moves).
  apply filter_take_prefix.
Qed.

End TopMoves.

Section MoreCandidates.
Context `{CL : ChessLib} `{EP : !EnginePort} `{XP : !ExplorerPort}.

(** [omap] drops elements, it adds none. *)
Lemma length_omap_le {A B} (f : A -> option B) (l : list A) :
  (length (omap f l) <= length l)%nat.
Proof.
  induction l as [|x l IH]; cbn; [lia|]. destruct (f x); cbn; lia.
Qed.

(** The selector never takes more than [n] moves from the explorer. *)
Lemma database_candidates_length b n : (length (database_candidates b n) <= n)%nat.
Proof.
  unfold database_candidates. etrans; [apply length_omap_le|].
  rewrite length_take. lia.
Qed.

(** A merged candidate is a database move or an engine move. *)
Lemma merged_candidate_source (n : nat) (db firsts : list Move) (m : Move) :
  m ∈ take n (db ++ fresh_moves db firsts) -> m ∈ db \/ m ∈ firsts.
Proof.
  intros Hm. apply subseteq_take in Hm.
  apply elem_of_app in Hm as [Hm | Hm]; [by left|]. right.
  by apply elem_of_fresh_moves in Hm as [Hm _].
Qed.

(** What the selector returns starts with the moves it took from the
    explorer, all of them: the moves parsed from the first [n] entries of the
    explorer's answer ranked by white + draws + black, most played first and
    entries of equal total in the order listed.  Every candidate after them is
    the first move of a line of the multi-line analysis of the same board, and
    the board is left as it was. *)
Theorem get_variation_candidates_database_first :
  forall (n : nat) (w w' : World Engine) (ms : list Move),
    get_variation_candidates n w = (w', Ok ms) ->
    let b := w_board w in
    let games (x : MoveData) : Z :=
      default 0 (md_white x) + default 0 (md_draws x) + default 0 (md_black x) in
    let entries :=
      match requests_get_json (fen (position b)) with
      | Ok {| ed_moves := Some listed |} => listed
      | _ => []
      end in
    exists (ranked : list MoveData) (engine_moves : list Move),
      ranked ≡ₚ entries /\
      StronglySorted (descending games) ranked /\
      (forall k : Z,
         filter (fun x => games x = k) ranked = filter (fun x => games x = k) entries) /\
      w_board w' = b /\
      ms = omap (entry_move b) (take n ranked) ++ engine_moves /\
      forall m, m ∈ engine_moves ->
        exists infos info,
          (analyse_multipv (w_engine w) b n).2 = Ok infos /\
          info ∈ infos /\ first_move info = Some m.
Proof.
  intros n w w' ms Hrun b games entries.
  rewrite get_variation_candidates_run in Hrun. cbn zeta in Hrun.
  pose proof (database_candidates_length (w_board w) n) as Hlen.
  rewrite database_candidates_read in Hrun, Hlen.
  fold b in Hrun, Hlen. fold entries in Hrun, Hlen. fold games in Hrun, Hlen.
  exists (sorted_reverse games entries).
  set (db := omap (entry_move b) (take n (sorted_reverse games entries))) in *.
  case_decide as Hfew.
  - destruct (analyse_multipv _ _ n) as [e' r]. injection Hrun as <- <-.
    rewrite take_app, (take_ge db) by lia.
    eexists. split; [apply sorted_reverse_perm|]. split; [apply sorted_reverse_sorted|].
    split; [intros k; apply sorted_reverse_stable|]. split; [done|]. split; [done|].
    intros m Hm. apply subseteq_take in Hm.
    apply elem_of_fresh_moves in Hm as [Hm _].
    apply list_elem_of_omap in Hm as (info & Hinfo & Hfirst).
    destruct r as [infos|x]; [|by apply elem_of_nil in Hinfo].
    by exists infos, info.
  - injection Hrun as <- <-. exists [].
    split; [apply sorted_reverse_perm|]. split; [apply sorted_reverse_sorted|].
    split; [intros k; apply sorted_reverse_stable|]. split; [done|].
    split; [by rewrite app_nil_r, take_ge by lia|].
    by intros m ?%elem_of_nil.
Qed.

(** When the explorer gives no entry (it cannot be reached, its answer has no
    ["moves"], or the list is empty), the candidates are pairwise distinct,
    and there is none when the engine fails as well. *)
Theorem get_variation_candidates_without_explorer :
  forall (n : nat) (w : World Engine),
    explorer_entries (w_board w) = [] ->
    exists e' ms,
      get_variation_candidates n w =
        ({| w_engine := e'; w_board := w_board w |}, Ok ms) /\
      NoDup ms /\
      ((exists x, (analyse_multipv (w_engine w) (w_board w) n).2 = Raise x) -> ms = []).
Proof.
  intros n w Hnone. rewrite get_variation_candidates_run. cbn zeta.
  unfold database_candidates. rewrite Hnone.
  replace (omap (entry_move (w_board w)) (take n (sorted_reverse total_games [])))
    with (@nil Move) by by destruct n.
  case_decide as Hfew.
  - destruct (analyse_multipv _ _ n) as [e' r]. eexists _, _. split; [done|]. split.
    + eapply sublist_NoDup; [|apply sublist_take].
      apply (fresh_moves_NoDup []). constructor.
    + intros [x Hx]. cbn in Hx. subst r. cbn. by destruct n.
  - exists (w_engine w), []. split; [destruct w; by destruct n|].
    split; [constructor|done].
Qed.

(** When python-chess parses texts to legal moves only and the engine's lines
    start with legal moves, every candidate is legal on the board. *)
Theorem get_variation_candidates_are_legal :
  parse_san_is_legal ->
  multipv_lines_start_legal ->
  forall (n : nat) (w : World Engine),
    exists w' ms,
      get_variation_candidates n w = (w', Ok ms) /\
      forall m, m ∈ ms -> m ∈ legal_moves (position (w_board w)).
Proof.
  intros Hparse Hlines n w. rewrite get_variation_candidates_run. cbn zeta.
  assert (forall m, m ∈ database_candidates (w_board w) n ->
                    m ∈ legal_moves (position (w_board w))) as Hdb.
  { intros m Hm. unfold database_candidates in Hm.
    apply list_elem_of_omap in Hm as (md & _ & Hentry). unfold entry_move in Hentry.
    destruct (md_san md) as [text|]; [|done]. case_decide; [done|].
    by apply (Hparse _ text). }
  case_decide as Hfew.
  - destruct (analyse_multipv _ _ n) as [e' r] eqn:Hmulti.
    eexists _, _. split; [done|]. intros m Hm.
    apply merged_candidate_source in Hm as [Hm | Hm]; [by apply Hdb|].
    apply list_elem_of_omap in Hm as (info & Hinfo & Hfirst).
    destruct r as [infos|x]; [|by apply elem_of_nil in Hinfo].
    by apply (Hlines _ _ _ _ _ _ _ Hmulti Hinfo Hfirst).
  - eexists _, _. split; [done|]. intros m Hm. apply Hdb. by apply subseteq_take in Hm.
Qed.

End MoreCandidates.

(** Negating a score negates its centipawn value. *)
Lemma Score_score_neg (mate_score : Z) (s : Score) :
  Score_score mate_score (Score_neg s) = - Score_score mate_score s.
Proof.
  destruct s as [cp|moves|]; cbn; [done| |].
  - case_decide; cbn; repeat case_decide; lia.
  - case_decide; lia.
Qed.

Section MoreEvaluate.
Context `{CL : ChessLib} `{EP : !EnginePort}.

(** A scoring call reads the answer from White's side: a score relative to
    White counts as it is, a score relative to Black with its sign changed. *)
Theorem analyse_white_cp_reads_from_white :
  forall (w : World Engine) (e' : Engine) (info : InfoDict) (s : Score) (c : Color),
    analyse (w_engine w) (w_board w) = (e', Ok info) ->
    info_score info = Some {| relative := s; pov_turn := c |} ->
    analyse_white_cp w =
      ({| w_engine := e'; w_board := w_board w |},
       Ok (for_side c (Score_score 10000 s))).
Proof.
  intros w e' info s c Hcall Hscore.
  unfold analyse_white_cp, engine_analyse, getitem_score; unfold_monad.
  rewrite Hcall, Hscore. unfold white, pov. cbn [pov_turn relative].
  destruct c.
  - by rewrite decide_True.
  - rewrite decide_False by done. by rewrite Score_score_neg.
Qed.

(** The margin and the engine calls do not depend on the threshold, and a move
    critical at a threshold is critical at every lower one. *)
Theorem evaluate_margin_independent_of_threshold :
  answers_carry_score ->
  forall (w : World Engine) (move : Move) (low high : Z),
    low <= high ->
    exists w' critical_low critical_high margin,
      evaluate_move_criticality move low w = (w', Ok (critical_low, margin)) /\
      evaluate_move_criticality move high w = (w', Ok (critical_high, margin)) /\
      (critical_high = true -> critical_low = true).
Proof.
  intros Hscore w move low high Hle. rewrite !(evaluate_run Hscore). cbn zeta.
  unfold verdict. destruct (filter _ _) as [|[m0 s0] rest].
  - by eexists _, _, _, _.
  - eexists _, _, _, _. split; [done|]. split; [done|].
    rewrite !bool_decide_eq_true. lia.
Qed.

End MoreEvaluate.

Section CallLog.
Context `{CL : ChessLib} (EP : EnginePort).

(** Logging changes no answer. *)
Lemma logged_answers_carry_score :
  answers_carry_score (EP := EP) -> answers_carry_score (EP := logged EP).
Proof.
  intros Hscore [e log] [e' log'] b info. cbn.
  destruct (@analyse CL EP e b) as [e1 r] eqn:Hcall. intros [= _ _ ->].
  by apply (Hscore _ _ _ _ Hcall).
Qed.

(** A scoring call on the logged engine logs its board. *)
Lemma score_call_logged e log b :
  score_call (EP := logged EP) (e, log) b =
  (((score_call (EP := EP) e b).1, log ++ [b]), (score_call (EP := EP) e b).2).
Proof.
  unfold score_call. cbn. by destruct (@analyse CL EP e b) as [e1 r].
Qed.

(** The table is the same, and every board tried is logged in order. *)
Lemma observed_scores_logged e log b alts :
  observed_scores (EP := logged EP) (e, log) b alts =
  (((observed_scores (EP := EP) e b alts).1, log ++ map (push b) alts),
   (observed_scores (EP := EP) e b alts).2).
Proof.
  revert e log. induction alts as [|alt rest IH]; intros e log.
  - cbn. by rewrite app_nil_r.
  - cbn [observed_scores map]. rewrite score_call_logged.
    destruct (score_call (EP := EP) e (push b alt)) as [e1 s]. cbn [fst snd].
    rewrite IH. destruct (observed_scores (EP := EP) e1 b rest) as [e2 table].
    cbn [fst snd]. by rewrite <- app_assoc.
Qed.

(** The evaluator asks the engine about the board after the candidate and then
    about the board after every legal move, the candidate included, in the
    order of [legal_moves]: one call more than there are legal moves. *)
Theorem evaluate_asks_about_every_legal_move :
  answers_carry_score (EP := EP) ->
  forall (e : @Engine CL EP) (log : list Board) (b : Board) (move : Move)
         (threshold : Z),
    exists e' v,
      evaluate_move_criticality (EP := EP) move threshold
        {| w_engine := e; w_board := b |} =
        ({| w_engine := e'; w_board := b |}, Ok v) /\
      evaluate_move_criticality (EP := logged EP) move threshold
        {| w_engine := (e, log); w_board := b |} =
        ({| w_engine :=
              (e', log ++ push b move :: map (push b) (legal_moves (position b)));
            w_board := b |}, Ok v).
Proof.
  intros Hscore e log b move threshold.
  rewrite (evaluate_run Hscore), (evaluate_run (logged_answers_carry_score Hscore)).
  cbn [w_engine w_board]. cbn zeta.
  rewrite score_call_logged. cbn [fst snd]. rewrite observed_scores_logged.
  cbn [fst snd]. eexists _, _. split; [done|].
  by rewrite <- app_assoc.
Qed.

End CallLog.

Section MoreWalk.
Context `{CL : ChessLib} `{EP : !EnginePort}.

(** Whatever the engine answers, a scan leaves the board as it was or, when
    it raises, with one move pushed. *)
Lemma scan_board_effect alts acc w w' r :
  scan_alternatives alts acc w = (w', r) ->
  match r with
  | Ok _ => w_board w' = w_board w
  | Raise _ => exists m, w_board w' = push (w_board w) m
  end.
Proof.
  revert acc w. induction alts as [|alt rest IH]; intros acc w.
  - cbn. by intros [= <- <-].
  - rewrite scan_unfold. step_bind. rewrite probe_run.
    destruct (analyse _ _) as [e1 r1]. destruct (reported_cp r1) as [s|x].
    + intros Hrun. by apply IH in Hrun.
    + intros [= <- <-]. by eexists.
Qed.

(** The same for the evaluator. *)
Lemma evaluate_board_effect move threshold w w' r :
  evaluate_move_criticality move threshold w = (w', r) ->
  match r with
  | Ok _ => w_board w' = w_board w
  | Raise _ => exists m, w_board w' = push (w_board w) m
  end.
Proof.
  rewrite evaluate_unfold. step_bind. rewrite probe_run.
  destruct (analyse _ _) as [e1 r1]. destruct (reported_cp r1) as [s|x].
  - cbn [get_board w_board].
    destruct (scan_alternatives _ _ _) as [w2 [table|x]] eqn:Hscan.
    + apply scan_board_effect in Hscan. by intros [= <- <-].
    + apply scan_board_effect in Hscan. by intros [= <- <-].
  - intros [= <- <-]. by eexists.
Qed.

(** One pass of the loop, handler included: the board gains at most one
    move, and exactly one when an entry is recorded. *)
Lemma walk_pass_effect threshold l w w' step :
  try_except (walk_step threshold l) (fun _ => ret None) w = (w', Ok step) ->
  exists line,
    w_board w' = foldl push (w_board w) line /\
    match step with
    | Some l' => exists entry, l' = l ++ [entry] /\ length line = 1%nat
    | None => (length line <= 1)%nat
    end.
Proof.
  unfold try_except, walk_step, engine_analyse. step_bind.
  destruct (analyse _ _) as [e1 [info|x]].
  - destruct (info_pv info) as [[|next pv]|].
    + intros [= <- <-]. exists []. split; [done|]. cbn. lia.
    + destruct (evaluate_move_criticality _ _ _) as [w2 [[is_crit score_diff]|x]] eqn:Heval;
        apply evaluate_board_effect in Heval; cbn [w_board] in Heval.
      * cbn. intros [= <- <-]. exists [next]. cbn. rewrite Heval.
        split; [done|]. by eexists.
      * destruct Heval as [m Hm]. cbn. intros [= <- <-]. exists [m]. cbn.
        split; [done|]. lia.
    + intros [= <- <-]. exists []. split; [done|]. cbn. lia.
  - cbn. intros [= <- <-]. exists []. split; [done|]. cbn. lia.
Qed.



(** One more pass at the end of the loop adds at most one entry to what the
    shorter loop returns. *)
Lemma walk_loop_one_more threshold iterations i l w w1 l1 w2 l2 :
  walk_loop threshold iterations l w = (w1, Ok l1) ->
  walk_loop threshold (iterations ++ [i]) l w = (w2, Ok l2) ->
  l1 `prefix_of` l2 /\ (length l2 <= S (length l1))%nat.
Proof.
  revert l w. induction iterations as [|i0 rest IH]; intros l w; cbn [walk_loop app].
  - intros [= <- <-]. step_bind.
    destruct (try_except _ _ w) as [w3 [step|x]] eqn:Hpass; [|done].
    apply walk_pass_effect in Hpass as (line & _ & Hstep).
    destruct step as [l3|].
    + destruct Hstep as (entry & -> & _). cbn. intros [= _ <-].
      split; [by apply prefix_app_r|]. rewrite length_app. cbn. lia.
    + intros [= _ <-]. split; [done|]. lia.
  - step_bind. destruct (try_except _ _ w) as [w3 [[l3|]|x]]; [| |done].
    + apply IH.
    + intros [= <- <-] [= _ <-]. split; [done|]. lia.
Qed.

(** From the same engine state, a walk one ply deeper records what the
    shallower walk records, and at most one entry more. *)
Theorem analyze_variation_deeper_extends_record :
  forall (start_board : Board) (candidate_move : Move) (variation_depth : nat)
         (threshold : Z) (e : Engine),
    exists e1 r1 e2 r2,
      analyze_variation start_board candidate_move variation_depth threshold e =
        (e1, Ok r1) /\
      analyze_variation start_board candidate_move (S variation_depth) threshold e =
        (e2, Ok r2) /\
      critical_info r1 `prefix_of` critical_info r2 /\
      (length (critical_info r2) <= S (length (critical_info r1)))%nat.
Proof.
  intros start_board candidate_move variation_depth threshold e.
  set (w := {| w_engine := e; w_board := copy start_board |}).
  destruct (walk_loop_returns threshold (seq 1 (variation_depth - 1))
              (first_ply candidate_move threshold w).2
              (first_ply candidate_move threshold w).1) as (w1 & l1 & Hloop1 & _).
  destruct (walk_loop_returns threshold (seq 1 (S variation_depth - 1))
              (first_ply candidate_move threshold w).2
              (first_ply candidate_move threshold w).1) as (w2 & l2 & Hloop2 & _).
  destruct (walk_returns _ _ _ _ _ _ Hloop1) as (e1 & x1 & Hwalk1).
  destruct (walk_returns _ _ _ _ _ _ Hloop2) as (e2 & x2 & Hwalk2).
  rewrite (analyze_variation_run _ _ _ _ _ _ _ _ Hwalk1).
  rewrite (analyze_variation_run _ _ _ _ _ _ _ _ Hwalk2).
  eexists _, _, _, _. split; [done|]. split; [done|]. cbn [critical_info].
  destruct variation_depth as [|d].
  - cbn in Hloop1, Hloop2. rewrite Hloop1 in Hloop2. injection Hloop2 as _ <-.
    split; [done|]. lia.
  - replace (S (S d) - 1)%nat with (S d) in Hloop2 by lia.
    replace (S d - 1)%nat with d in Hloop1 by lia.
    rewrite seq_S in Hloop2. by apply (walk_loop_one_more _ _ _ _ _ _ _ _ _ Hloop1 Hloop2).
Qed.

End MoreWalk.

Section Replay.
Context `{CL : ChessLib} `{EP : !EnginePort}.

(** Pushing a list of texts in two parts. *)
Lemma push_san_all_app b l1 l2 :
  push_san_all b (l1 ++ l2) =
  match push_san_all b l1 with
  | Some b1 => push_san_all b1 l2
  | None => None
  end.
Proof.
  revert b. induction l1 as [|text l1 IH]; intros b; cbn; [done|].
  destruct (push_san b text) as [b'|]; [apply IH | done].
Qed.

(** The texts fail to replay exactly when one of them does not parse where
    it is played. *)
Lemma push_san_all_None b l :
  push_san_all b l = None <->
  exists played bad rest b1,
    l = played ++ bad :: rest /\
    push_san_all b played = Some b1 /\
    parse_san (position b1) bad = None.
Proof.
  revert b. induction l as [|text l IH]; intros b; cbn.
  - split; [done|]. intros (played & bad & rest & b1 & Heq & _).
    by destruct played.
  - unfold push_san at 1. destruct (parse_san (position b) text) as [move|] eqn:Hparse.
    + rewrite IH. split.
      * intros (played & bad & rest & b1 & -> & Hplayed & Hbad).
        exists (text :: played), bad, rest, b1. split; [done|]. split; [|done].
        cbn. unfold push_san. by rewrite Hparse.
      * intros (played & bad & rest & b1 & Heq & Hplayed & Hbad).
        destruct played as [|text' played]; cbn in Heq, Hplayed.
        -- injection Heq as <- <-. injection Hplayed as <-. congruence.
        -- injection Heq as <- ->. unfold push_san in Hplayed.
           rewrite Hparse in Hplayed. by exists played, bad, rest, b1.
    + split; [|done]. intros _. by exists [], text, l, b.
Qed.

(** [get_fen_from_moves] returns [None] exactly when some text of the list
    does not parse on the board the texts before it lead to. *)
Theorem get_fen_from_moves_fails_at_first_bad_move :
  forall (start : Position) (moves_list : list string),
    get_fen_from_moves start moves_list = None <->
    exists played bad rest b1,
      moves_list = played ++ bad :: rest /\
      push_san_all (new_board start) played = Some b1 /\
      parse_san (position b1) bad = None.
Proof.
  intros start moves_list. rewrite <- push_san_all_None. unfold get_fen_from_moves.
  by destruct (push_san_all (new_board start) moves_list).
Qed.

(** A legal line extended by one move. *)
Lemma legal_line_snoc b line move :
  legal_line b (line ++ [move]) <->
  legal_line b line /\ move ∈ legal_moves (position (foldl push b line)).
Proof.
  revert b. induction line as [|m line IH]; intros b; cbn.
  - tauto.
  - rewrite IH. tauto.
Qed.

(** The texts written along a legal line replay to the end of the line. *)
Lemma push_san_all_line_texts b line :
  san_parses_back ->
  legal_line b line ->
  push_san_all b (line_texts b line) = Some (foldl push b line).
Proof.
  intros Hback. revert b. induction line as [|move line IH]; intros b; cbn; [done|].
  intros [Hlegal Hline]. destruct (Hback _ _ Hlegal) as (text & Hsan & Hparse).
  unfold san_or_str, push_san. rewrite Hsan, Hparse. by apply IH.
Qed.

(** With scored answers and legal lines, a pass records a legal move and
    plays it, or leaves the board alone. *)
Lemma walk_step_cases_legal threshold l w :
  answers_carry_score ->
  lines_start_legal ->
  match walk_step threshold l w with
  | (w', Ok (Some l')) =>
      exists next is_crit score_diff,
        next ∈ legal_moves (position (w_board w)) /\
        w_board w' = push (w_board w) next /\
        l' = l ++ [(san_or_str (w_board w) next, is_crit, score_diff)]
  | (w', _) => w_board w' = w_board w
  end.
Proof.
  intros Hscore Hlegal. unfold walk_step, engine_analyse; step_bind.
  destruct (analyse _ _) as [e1 [info|x]] eqn:Hcall; [|done].
  destruct (info_pv info) as [[|next pv]|] eqn:Hpv; try done.
  rewrite (evaluate_run Hscore). cbn.
  destruct (verdict _ _ _ _) as [is_crit score_diff]. exists next, is_crit, score_diff.
  split; [|done]. by apply (Hlegal _ _ _ _ _ _ Hcall Hpv).
Qed.

(** The loop keeps the board, the texts and the legality of the line played
    in step. *)
Lemma walk_loop_tracks_legal threshold start iterations l w line w' l' :
  answers_carry_score ->
  lines_start_legal ->
  w_board w = foldl push start line ->
  map (fun e => e.1.1) l = line_texts start line ->
  legal_line start line ->
  walk_loop threshold iterations l w = (w', Ok l') ->
  exists more,
    w_board w' = foldl push start (line ++ more) /\
    map (fun e => e.1.1) l' = line_texts start (line ++ more) /\
    legal_line start (line ++ more).
Proof.
  intros Hscore Hlegal. revert l w line.
  induction iterations as [|i rest IH]; intros l w line Hboard Htexts Hline;
    cbn [walk_loop].
  - intros [= <- <-]. exists []. by rewrite app_nil_r.
  - step_bind; unfold try_except.
    pose proof (walk_step_cases_legal threshold l w Hscore Hlegal) as Hcases.
    destruct (walk_step threshold l w) as [w1 [[l1|]|x]].
    + destruct Hcases as (next & is_crit & score_diff & Hnext & Hb1 & ->).
      intros Hloop.
      assert (w_board w1 = foldl push start (line ++ [next])) as Hb1'.
      { by rewrite Hb1, Hboard, foldl_app. }
      assert (map (fun e => e.1.1)
                (l ++ [(san_or_str (w_board w) next, is_crit, score_diff)]) =
              line_texts start (line ++ [next])) as Ht1.
      { by rewrite map_app, Htexts, line_texts_snoc, Hboard. }
      assert (legal_line start (line ++ [next])) as Hl1.
      { apply legal_line_snoc. split; [done|]. by rewrite <- Hboard. }
      destruct (IH _ _ _ Hb1' Ht1 Hl1 Hloop) as (more & Hb & Ht & Hl).
      exists (next :: more). by rewrite cons_middle, app_assoc.
    + intros [= <- <-]. exists []. rewrite app_nil_r. by rewrite Hcases.
    + intros [= <- <-]. exists []. rewrite app_nil_r. by rewrite Hcases.
Qed.

(** On an engine whose answers carry a score and whose lines start with legal
    moves, a walk from a legal candidate returns, and the line it played is
    legal from the start board. *)
Lemma analyze_variation_legal_line start_board candidate_move variation_depth threshold e :
  answers_carry_score ->
  lines_start_legal ->
  candidate_move ∈ legal_moves (position start_board) ->
  exists e' r line,
    analyze_variation start_board candidate_move variation_depth threshold e =
      (e', Ok r) /\
    final_board r = foldl push start_board (candidate_move :: line) /\
    legal_line start_board (candidate_move :: line) /\
    moves r = line_texts start_board (candidate_move :: line) /\
    length (critical_info r) = S (length line) /\
    (length line <= variation_depth - 1)%nat.
Proof.
  intros Hscore Hlegal Hcandidate.
  set (w := {| w_engine := e; w_board := copy start_board |}).
  destruct (walk_loop_returns threshold (seq 1 (variation_depth - 1))
              (first_ply candidate_move threshold w).2
              (first_ply candidate_move threshold w).1) as (w1 & l & Hloop & Hlen).
  destruct (walk_returns _ _ _ _ _ _ Hloop) as (e' & x & Hwalk).
  rewrite (analyze_variation_run _ _ _ _ _ _ _ _ Hwalk).
  revert Hloop Hlen. unfold first_ply. rewrite (evaluate_run Hscore). cbn zeta.
  destruct (verdict _ _ _ _) as [is_crit score_diff].
  cbn [fst snd w_board w_engine w]. rewrite copy_eq. intros Hloop Hlen.
  eapply (walk_loop_tracks_legal _ start_board _ _ _ [candidate_move]) in Hloop
    as (line & Hboard & Htexts & Hline); [|done..|by split].
  cbn [app] in Hboard, Htexts, Hline.
  assert (length l = length (candidate_move :: line)) as Hentries.
  { rewrite <- (line_texts_length start_board (candidate_move :: line)), <- Htexts.
    by rewrite length_map. }
  eexists _, _, line. cbn [final_board moves critical_info w_board].
  split; [done|]. split; [done|]. split; [done|]. split; [done|]. split; [done|].
  rewrite length_seq in Hlen. cbn [length] in Hlen, Hentries. lia.
Qed.

(** The walker plays legal moves only: on an engine whose answers carry a
    score and whose lines start with legal moves, a walk from a legal
    candidate returns its dictionary, and the final board is reached from the
    start board by a line of moves each legal where it is played, the
    candidate first and then one move for every further entry of the record;
    [critical_count] counts entries of the record, so it does not exceed
    their number. *)
Theorem analyze_variation_plays_legal_moves :
  answers_carry_score ->
  lines_start_legal ->
  forall (start_board : Board) (candidate_move : Move) (variation_depth : nat)
         (threshold : Z) (e : Engine),
    candidate_move ∈ legal_moves (position start_board) ->
    exists e' r line,
      analyze_variation start_board candidate_move variation_depth threshold e =
        (e', Ok r) /\
      final_board r = foldl push start_board (candidate_move :: line) /\
      legal_line start_board (candidate_move :: line) /\
      length (critical_info r) = length (candidate_move :: line) /\
      (critical_count r <= length (critical_info r))%nat.
Proof.
  intros Hscore Hlegal start_board candidate_move variation_depth threshold e Hcandidate.
  destruct (analyze_variation_legal_line start_board candidate_move variation_depth
              threshold e Hscore Hlegal Hcandidate)
    as (e' & r & line & Hrun & Hboard & Hline & _ & Hentries & _).
  exists e', r, line. split; [done|]. split; [done|]. split; [done|]. split; [done|].
  revert Hrun. unfold analyze_variation.
  destruct (walk _ _ _ _) as [w [[l x]|y]]; [|done].
  intros [= _ <-]. cbn [critical_count critical_info]. apply length_filter.
Qed.

(** On an engine whose answers carry a score and whose lines start with legal
    moves, and with texts that parse back, the texts recorded by a walk from
    a legal candidate replay from the start board to the final board; after the
    opening line that led to the start board, [get_fen_from_moves] gives the
    final board's FEN. *)
Theorem analyze_variation_moves_replay :
  answers_carry_score ->
  lines_start_legal ->
  san_parses_back ->
  forall (initial : Position) (opening : list string) (start_board : Board)
         (candidate_move : Move) (variation_depth : nat) (threshold : Z) (e : Engine),
    push_san_all (new_board initial) opening = Some start_board ->
    candidate_move ∈ legal_moves (position start_board) ->
    exists e' r,
      analyze_variation start_board candidate_move variation_depth threshold e =
        (e', Ok r) /\
      push_san_all start_board (moves r) = Some (final_board r) /\
      get_fen_from_moves initial (opening ++ moves r) =
        Some (fen (position (final_board r))).
Proof.
  intros Hscore Hlegal Hback initial opening start_board candidate_move
    variation_depth threshold e Hopening Hcandidate.
  set (w := {| w_engine := e; w_board := copy start_board |}).
  destruct (walk_loop_returns threshold (seq 1 (variation_depth - 1))
              (first_ply candidate_move threshold w).2
              (first_ply candidate_move threshold w).1) as (w1 & l & Hloop & _).
  destruct (walk_returns _ _ _ _ _ _ Hloop) as (e' & x & Hwalk).
  rewrite (analyze_variation_run _ _ _ _ _ _ _ _ Hwalk).
  revert Hloop. unfold first_ply. rewrite (evaluate_run Hscore). cbn zeta.
  destruct (verdict _ _ _ _) as [is_crit score_diff].
  cbn [fst snd w_board w_engine w]. rewrite copy_eq. intros Hloop.
  eapply (walk_loop_tracks_legal _ start_board _ _ _ [candidate_move]) in Hloop
    as (line & Hboard & Htexts & Hline); [|done..|by split].
  cbn [app] in Hboard, Htexts, Hline.
  eexists _, _. split; [done|]. cbn [final_board moves w_board].
  assert (push_san_all start_board (line_texts start_board (candidate_move :: line)) =
          Some (w_board w1)) as Hreplay.
  { rewrite Hboard. by apply push_san_all_line_texts. }
  rewrite <- Htexts in Hreplay. split; [exact Hreplay|].
  unfold get_fen_from_moves. rewrite push_san_all_app, Hopening.
  by erewrite Hreplay.
Qed.

End Replay.

Section PlanExplanation.
Context `{CL : ChessLib} `{EP : !EnginePort}.

(** [generate_plan_explanation] asks the engine once, never raises and leaves
    the board alone.  The text is the unclear one exactly when the call failed
    or its answer has no score; otherwise it is White's advantage above 100
    centipawns from White's side, Black's below -100, and the balanced text in
    between, 100 and -100 included. *)
Theorem generate_plan_explanation_classifies :
  forall (w : World Engine),
    let call := analyse (w_engine w) (w_board w) in
    exists x,
      generate_plan_explanation w =
        ({| w_engine := call.1; w_board := w_board w |}, Ok x) /\
      (x = Unclear <->
       (exists e, call.2 = Raise e) \/
       (exists info, call.2 = Ok info /\ info_score info = None)) /\
      forall info ps,
        call.2 = Ok info -> info_score info = Some ps ->
        let cp := Score_score 10000 (white ps) in
        (x = WhiteAdvantage <-> 100 < cp) /\
        (x = BlackAdvantage <-> cp < -100) /\
        (x = Balanced <-> -100 <= cp <= 100).
Proof.
  intros w call. subst call.
  unfold generate_plan_explanation, engine_analyse, getitem_score; unfold_monad.
  destruct (analyse (w_engine w) (w_board w)) as [e1 [info|e]]; cbn [fst snd].
  - destruct (info_score info) as [ps|] eqn:Hscore; cbn.
    + eexists. split; [done|]. split.
      * split.
        -- repeat case_decide; done.
        -- intros [[e He] | (info' & [= <-] & Hnone)]; congruence.
      * intros info' ps' [= <-] Hps. rewrite Hscore in Hps. injection Hps as <-.
        cbn zeta. repeat case_decide; (split; [|split]); split; (done || lia).
    + eexists. split; [done|]. split.
      * split; [|done]. intros _. right. by exists info.
      * intros info' ps' [= <-] Hps. congruence.
  - cbn. eexists. split; [done|]. split.
    + split; [|done]. intros _. left. by exists e.
    + intros info ps Hcall. done.
Qed.

End PlanExplanation.

(** ** The top-level loop *)

Section MainFacts.
Context `{CL : ChessLib} `{EP : !EnginePort} `{XP : !ExplorerPort}.

(** When texts parse to legal moves only and the engine's lines start with
    legal moves, the selector leaves the board alone and returns at most [n]
    moves, all legal on it. *)
Lemma selected_candidates_legal (n : nat) (w w' : World Engine) (ms : list Move) :
  parse_san_is_legal ->
  multipv_lines_start_legal ->
  get_variation_candidates n w = (w', Ok ms) ->
  w_board w' = w_board w /\
  (length ms <= n)%nat /\
  Forall (fun m => m ∈ legal_moves (position (w_board w))) ms.
Proof.
  intros Hparse Hlines. rewrite get_variation_candidates_run. cbn zeta.
  assert (forall m, m ∈ database_candidates (w_board w) n ->
                    m ∈ legal_moves (position (w_board w))) as Hdb.
  { intros m Hm. unfold database_candidates in Hm.
    apply list_elem_of_omap in Hm as (md & _ & Hentry). unfold entry_move in Hentry.
    destruct (md_san md) as [text|]; [|done]. case_decide; [done|].
    by apply (Hparse _ text). }
  case_decide as Hfew.
  - destruct (analyse_multipv _ _ n) as [e' r] eqn:Hmulti. intros [= <- <-].
    split; [done|]. split; [rewrite length_take; lia|].
    apply Forall_forall. intros m Hm. apply subseteq_take in Hm.
    apply elem_of_app in Hm as [Hm | Hm]; [by apply Hdb|].
    apply elem_of_fresh_moves in Hm as [Hm _].
    apply list_elem_of_omap in Hm as (info & Hinfo & Hfirst).
    destruct r as [infos|x]; [|by apply elem_of_nil in Hinfo].
    by apply (Hlines _ _ _ _ _ _ _ Hmulti Hinfo Hfirst).
  - intros [= <- <-]. split; [done|]. split; [rewrite length_take; lia|].
    apply Forall_forall. intros m Hm. apply Hdb. by apply subseteq_take in Hm.
Qed.

(** Called with a board object, [analyze_variation] computes what it computes
    from the object's contents, leaves the object as it was, and uses up one
    name for its copy. *)
Lemma call_analyze_variation_by_value start_board candidate_move variation_depth
    threshold (s : Objects) :
  (start_board < next_board s)%nat ->
  let call := call_analyze_variation start_board candidate_move variation_depth
                threshold s in
  let by_value := analyze_variation (board_at s start_board) candidate_move
                    variation_depth threshold (the_engine s) in
  the_engine call.1 = by_value.1 /\
  call.2 = by_value.2 /\
  board_at call.1 start_board = board_at s start_board /\
  next_board call.1 = S (next_board s).
Proof.
  intros Hold call by_value. subst call by_value.
  unfold call_analyze_variation, analyze_variation, board_copy, on_board.
  cbn [the_engine board_at next_board].
  rewrite decide_True by done.
  destruct (walk _ _ _ _) as [w [[l x]|y]]; cbn [fst snd the_engine board_at next_board].
  - rewrite decide_True by done. rewrite !decide_False by lia. done.
  - rewrite !decide_False by lia. done.
Qed.

(** The loop of [main] walks every candidate from the contents of [board],
    which it leaves as they were. *)
Lemma analyze_candidates_walks (board : nat) (candidates : list Move)
    (variations : list Variation) (s : Objects) :
  answers_carry_score ->
  lines_start_legal ->
  (board < next_board s)%nat ->
  Forall (fun m => m ∈ legal_moves (position (board_at s board))) candidates ->
  exists s' more,
    analyze_candidates board candidates variations s = (s', Ok (variations ++ more)) /\
    board_at s' board = board_at s board /\
    Forall2
      (fun candidate v =>
         exists line,
           final_board v = foldl push (board_at s board) (candidate :: line) /\
           legal_line (board_at s board) (candidate :: line) /\
           moves v = line_texts (board_at s board) (candidate :: line) /\
           length (critical_info v) = length (candidate :: line) /\
           (length line < 5)%nat)
      candidates more.
Proof.
  intros Hscore Hlegal. revert variations s.
  induction candidates as [|candidate rest IH]; intros variations s Hold Hall;
    cbn [analyze_candidates].
  - exists s, []. rewrite app_nil_r. split; [done|]. split; [done|]. constructor.
  - apply Forall_cons in Hall as [Hcandidate Hrest].
    destruct (call_analyze_variation_by_value board candidate 5 50 s Hold)
      as (Hengine & Hresult & Hboard & Hnext).
    destruct (analyze_variation_legal_line (board_at s board) candidate 5 50
                (the_engine s) Hscore Hlegal Hcandidate)
      as (e1 & r & line & Hrun & Hfinal & Hline & Htexts & Hentries & Hdepth).
    rewrite Hrun in Hresult. cbn [snd] in Hresult.
    destruct (call_analyze_variation board candidate 5 50 s) as [s1 result].
    cbn [fst snd] in Hboard, Hnext, Hresult. subst result.
    destruct (IH (variations ++ [r]) s1) as (s' & more & -> & Hboard' & Hmore).
    { lia. }
    { by rewrite Hboard. }
    rewrite Hboard in Hboard', Hmore.
    exists s', (r :: more). rewrite <- app_assoc. split; [done|]. split; [done|].
    constructor; [|done]. exists line. cbn [length] in Hentries |- *.
    split; [done|]. split; [done|]. split; [done|]. split; [done|]. lia.
Qed.

(** Steps 3 and 4 of [main]: when the selector returns its candidates, on an
    engine whose answers carry a score and whose lines start with legal moves
    and with texts that parse to legal moves only, there is one variation for
    each candidate, in the selector's order and three at most.  Every
    variation starts from the position after the opening line, whatever was
    played in the variations before it: [main]'s board object is as it was
    after the loop, the walks being made on copies.  Each variation plays its
    candidate first and records at most five moves, each legal where it is
    played, under the texts they have along the line. *)
Theorem main_variations_walks_each_candidate :
  answers_carry_score ->
  lines_start_legal ->
  parse_san_is_legal ->
  multipv_lines_start_legal ->
  forall (board : nat) (s : Objects) (w : World Engine) (candidates : list Move),
    (board < next_board s)%nat ->
    let start := board_at s board in
    get_variation_candidates 3 {| w_engine := the_engine s; w_board := start |} =
      (w, Ok candidates) ->
    exists s' variations,
      main_variations board s = (s', Ok variations) /\
      board_at s' board = start /\
      (length variations <= 3)%nat /\
      Forall2
        (fun candidate v =>
           exists line,
             final_board v = foldl push start (candidate :: line) /\
             legal_line start (candidate :: line) /\
             moves v = line_texts start (candidate :: line) /\
             length (critical_info v) = length (candidate :: line) /\
             (length line < 5)%nat)
        candidates variations.
Proof.
  intros Hscore Hlegal Hparse Hlines board s w candidates Hold start Hselect.
  destruct (selected_candidates_legal _ _ _ _ Hparse Hlines Hselect)
    as (Hkept & Hthree & Hall).
  cbn [w_board] in Hkept, Hall.
  unfold main_variations, on_board. fold start. rewrite Hselect.
  set (s1 := {| the_engine := w_engine w; board_at := _; next_board := next_board s |}).
  assert (board_at s1 board = start) as Hstart.
  { subst s1. cbn [board_at]. by rewrite decide_True. }
  destruct (analyze_candidates_walks board candidates [] s1 Hscore Hlegal)
    as (s' & variations & Hloop & Hboard & Hwalks).
  { done. }
  { by rewrite Hstart. }
  rewrite Hstart in Hboard, Hwalks.
  exists s', variations. split; [done|]. split; [done|]. split; [|done].
  apply Forall2_length in Hwalks. lia.
Qed.

End MainFacts.

(** ** More runs on the small game *)

Section MoreRuns.
Import Nim NimStubs.

(** The stubs built by [by_tokens] answer with a score. *)
Ltac scored_stub := intros ? ? ? ? [= _ <-]; by eexists.

(** The small game writes each legal move in a text it parses back. *)
Lemma heap_san_parses_back : san_parses_back (CL := rules).
Proof.
  intros [n c] move Hlegal. cbn in *. unfold heap_san, heap_parse.
  rewrite decide_True by done. exists (move_text move). split; [done|].
  unfold heap_moves in *. cbn [tokens] in *.
  destruct n as [|[|n]].
  - by apply elem_of_nil in Hlegal.
  - apply list_elem_of_singleton in Hlegal as ->. cbn.
    rewrite decide_True; [done|]. split; [done|]. by left.
  - apply elem_of_cons in Hlegal as [-> | Hlegal].
    + cbn. rewrite decide_True; [done|]. split; [done|]. by left.
    + apply list_elem_of_singleton in Hlegal as ->. cbn.
      rewrite decide_False by (by intros [? _]).
      rewrite decide_True; [done|]. split; [done|]. by right; left.
Qed.

(** The small game parses a text to a legal move only. *)
Lemma heap_parse_is_legal : parse_san_is_legal (CL := rules).
Proof.
  intros p text move. cbn. unfold heap_parse.
  repeat case_decide; intros [= <-]; tauto.
Qed.

(** The lines of [first_legal_until_ply_two] start with a legal move. *)
Lemma first_legal_lines_start_legal :
  lines_start_legal (EP := first_legal_until_ply_two).
Proof.
  intros e e' b info move pv [= _ <-]. cbn.
  case_decide; [|done]. intros [= Htake].
  apply (subseteq_take 1). rewrite Htake. by left.
Qed.

(** The multi-line answers of the [by_tokens] stubs start with legal moves. *)
Lemma by_tokens_multipv_lines_start_legal score pv :
  multipv_lines_start_legal (EP := by_tokens score pv).
Proof.
  intros e e' b n infos info move [= _ <-] Hin.
  apply list_elem_of_fmap in Hin as (m & -> & Hm). cbn. intros [= <-].
  by apply subseteq_take in Hm.
Qed.

(** Without an explorer the candidates are the engine's, and distinct. *)
Lemma get_variation_candidates_without_explorer_run :
  exists e' ms,
    get_variation_candidates (EP := hundred_or_forty) (XP := explorer_down) 3
      {| w_engine := 0%nat; w_board := board_of 2 White |} =
      ({| w_engine := e'; w_board := board_of 2 White |}, Ok ms) /\
    NoDup ms /\
    ((exists x,
        (analyse_multipv (EnginePort := hundred_or_forty) 0%nat (board_of 2 White) 3).2 =
        Raise x) -> ms = []).
Proof.
  apply (get_variation_candidates_without_explorer (EP := hundred_or_forty)
           (XP := explorer_down) 3
           {| w_engine := 0%nat; w_board := board_of 2 White |}).
  reflexivity.
Defined.

(** Candidates from an explorer entry and from the engine, both legal. *)
Lemma get_variation_candidates_are_legal_run :
  exists w' ms,
    get_variation_candidates (EP := hundred_or_forty)
      (XP := explorer_of [entry "two" 7]) 2
      {| w_engine := 0%nat; w_board := board_of 2 White |} = (w', Ok ms) /\
    forall m, m ∈ ms -> m ∈ heap_moves {| tokens := 2; to_move := White |}.
Proof.
  apply (get_variation_candidates_are_legal (EP := hundred_or_forty)
           (XP := explorer_of [entry "two" 7])
           heap_parse_is_legal (by_tokens_multipv_lines_start_legal _ _) 2
           {| w_engine := 0%nat; w_board := board_of 2 White |}).
Defined.

(** Thirty centipawns for Black are minus thirty from White's side. *)
Lemma analyse_white_cp_black_relative_run :
  analyse_white_cp (EP := black_relative)
    {| w_engine := 0%nat; w_board := board_of 2 Black |} =
  ({| w_engine := 1%nat; w_board := board_of 2 Black |}, Ok (-30)).
Proof.
  eapply (analyse_white_cp_reads_from_white (EP := black_relative)
            {| w_engine := 0%nat; w_board := board_of 2 Black |} 1%nat _ (Cp 30) Black);
    reflexivity.
Defined.

(** Thresholds 60 and 61 on the run of C1: the same margin 60. *)
Lemma evaluate_thresholds_run :
  exists w' critical_low critical_high margin,
    evaluate_move_criticality (EP := hundred_or_forty) 1%nat 60
      {| w_engine := 0%nat; w_board := board_of 2 White |} =
      (w', Ok (critical_low, margin)) /\
    evaluate_move_criticality (EP := hundred_or_forty) 1%nat 61
      {| w_engine := 0%nat; w_board := board_of 2 White |} =
      (w', Ok (critical_high, margin)) /\
    (critical_high = true -> critical_low = true).
Proof.
  apply (evaluate_margin_independent_of_threshold (EP := hundred_or_forty)
           ltac:(scored_stub)
           {| w_engine := 0%nat; w_board := board_of 2 White |} 1%nat 60 61).
  lia.
Defined.

(** Two legal moves: three boards are asked about. *)
Lemma evaluate_call_log_run :
  exists e' v,
    evaluate_move_criticality (EP := hundred_or_forty) 1%nat 60
      {| w_engine := 0%nat; w_board := board_of 2 White |} =
      ({| w_engine := e'; w_board := board_of 2 White |}, Ok v) /\
    evaluate_move_criticality (EP := logged hundred_or_forty) 1%nat 60
      {| w_engine := (0%nat, []); w_board := board_of 2 White |} =
      ({| w_engine :=
            (e', [push (board_of 2 White) 1%nat; push (board_of 2 White) 1%nat;
                  push (board_of 2 White) 2%nat]);
          w_board := board_of 2 White |}, Ok v).
Proof.
  apply (evaluate_asks_about_every_legal_move hundred_or_forty ltac:(scored_stub)
           0%nat [] (board_of 2 White) 1%nat 60).
Defined.


(** After the opening line "one" on a heap of five, the walk's texts replay. *)
Lemma analyze_variation_moves_replay_run :
  exists e' r,
    analyze_variation (EP := first_legal_until_ply_two)
      (push (new_board {| tokens := 5; to_move := White |}) 1%nat) 1%nat 5 50 0%nat =
      (e', Ok r) /\
    push_san_all (push (new_board {| tokens := 5; to_move := White |}) 1%nat) (moves r) =
      Some (final_board r) /\
    get_fen_from_moves {| tokens := 5; to_move := White |} (["one"] ++ moves r) =
      Some (fen (position (final_board r))).
Proof.
  apply (analyze_variation_moves_replay (EP := first_legal_until_ply_two)
           ltac:(scored_stub) first_legal_lines_start_legal heap_san_parses_back
           {| tokens := 5; to_move := White |} ["one"]).
  - reflexivity.
  - by left.
Defined.

(** Three entries on a heap of three and two candidates asked for: by the sum
    of the three counts the ranking is "none" (27), "two" (8), "one" (5), where
    by White's wins alone "one" would come before "two".  The first two are
    taken, "none" does not parse, and of the engine's first moves 1 and 2 only
    1 is new.  Asked for one candidate, "two" is enough and the engine is not
    asked. *)
Lemma get_variation_candidates_merges_run :
  get_variation_candidates (EP := hundred_or_forty)
    (XP := explorer_of [counted "one" 5 0 0; counted "none" 9 9 9; counted "two" 1 3 4]) 2
    {| w_engine := 0%nat; w_board := board_of 3 White |} =
    ({| w_engine := 1%nat; w_board := board_of 3 White |}, Ok [2%nat; 1%nat]) /\
  get_variation_candidates (EP := hundred_or_forty)
    (XP := explorer_of [counted "one" 5 0 0; counted "two" 1 3 4]) 1
    {| w_engine := 0%nat; w_board := board_of 3 White |} =
    ({| w_engine := 0%nat; w_board := board_of 3 White |}, Ok [2%nat]).
Proof.
  split.
  - destruct (get_variation_candidates_merges (EP := hundred_or_forty)
                (XP := explorer_of
                         [counted "one" 5 0 0; counted "none" 9 9 9; counted "two" 1 3 4])
                2 {| w_engine := 0%nat; w_board := board_of 3 White |})
      as (ranked & _ & Hsorted & Hstable & Hrun).
    cbn zeta in Hrun. rewrite Hrun.
    rewrite (stable_descending_unique _ _ _ Hsorted (sorted_reverse_sorted _ _)
               (fun k => eq_trans (Hstable k) (eq_sym (sorted_reverse_stable _ k _)))).
    reflexivity.
  - destruct (get_variation_candidates_merges (EP := hundred_or_forty)
                (XP := explorer_of [counted "one" 5 0 0; counted "two" 1 3 4])
                1 {| w_engine := 0%nat; w_board := board_of 3 White |})
      as (ranked & _ & Hsorted & Hstable & Hrun).
    cbn zeta in Hrun. rewrite Hrun.
    rewrite (stable_descending_unique _ _ _ Hsorted (sorted_reverse_sorted _ _)
               (fun k => eq_trans (Hstable k) (eq_sym (sorted_reverse_stable _ k _)))).
    reflexivity.
Defined.

(** Of three entries the two most played by the sum of their counts. *)
Lemma get_top_moves_from_lichess_run :
  get_top_moves_from_lichess
    {| ed_moves := Some [counted "one" 5 0 0; counted "none" 9 9 9; counted "two" 1 3 4] |} 2 =
    [counted "none" 9 9 9; counted "two" 1 3 4] /\
  length
    (get_top_moves_from_lichess
       {| ed_moves := Some [counted "one" 5 0 0; counted "none" 9 9 9; counted "two" 1 3 4] |}
       2) = 2%nat.
Proof.
  split; [reflexivity|].
  apply (get_top_moves_from_lichess_are_most_played
           {| ed_moves := Some [counted "one" 5 0 0; counted "none" 9 9 9;
                                counted "two" 1 3 4] |} 2).
Defined.

(** On the same three entries: the explorer's move 2 comes first, the engine's
    move 1 after it. *)
Lemma get_variation_candidates_database_first_run :
  exists (ranked : list MoveData) (engine_moves : list nat),
    ranked ≡ₚ [counted "one" 5 0 0; counted "none" 9 9 9; counted "two" 1 3 4] /\
    StronglySorted
      (descending (fun x => default 0 (md_white x) + default 0 (md_draws x) +
                            default 0 (md_black x))) ranked /\
    (forall k : Z,
       filter (fun x => default 0 (md_white x) + default 0 (md_draws x) +
                        default 0 (md_black x) = k) ranked =
       filter (fun x => default 0 (md_white x) + default 0 (md_draws x) +
                        default 0 (md_black x) = k)
         [counted "one" 5 0 0; counted "none" 9 9 9; counted "two" 1 3 4]) /\
    board_of 3 White = board_of 3 White /\
    [2%nat; 1%nat] =
      omap (entry_move (board_of 3 White)) (take 2 ranked) ++ engine_moves /\
    forall m, m ∈ engine_moves ->
      exists infos info,
        (analyse_multipv (EnginePort := hundred_or_forty) 0%nat (board_of 3 White) 2).2 =
          Ok infos /\
        info ∈ infos /\ first_move info = Some m.
Proof.
  apply (get_variation_candidates_database_first (EP := hundred_or_forty)
           (XP := explorer_of
                    [counted "one" 5 0 0; counted "none" 9 9 9; counted "two" 1 3 4])
           2 {| w_engine := 0%nat; w_board := board_of 3 White |}
           {| w_engine := 1%nat; w_board := board_of 3 White |} [2%nat; 1%nat]).
  reflexivity.
Defined.

(** A walk of five plies on a heap of five: every move played is legal. *)
Lemma analyze_variation_plays_legal_moves_run :
  exists e' r line,
    analyze_variation (EP := first_legal_until_ply_two) (board_of 5 White) 2%nat 5 50 0%nat =
      (e', Ok r) /\
    final_board r = foldl push (board_of 5 White) (2%nat :: line) /\
    legal_line (board_of 5 White) (2%nat :: line) /\
    length (critical_info r) = length (2%nat :: line) /\
    (critical_count r <= length (critical_info r))%nat.
Proof.
  apply (analyze_variation_plays_legal_moves (EP := first_legal_until_ply_two)
           ltac:(scored_stub) first_legal_lines_start_legal
           (board_of 5 White) 2%nat 5 50 0%nat).
  by right; left.
Defined.

(** Steps 3 and 4 of [main] on a heap of four: the explorer gives move 2, the
    engine adds move 1, and both are walked from the heap of four. *)
Lemma main_variations_run :
  exists s' variations,
    main_variations (EP := first_legal_until_ply_two) (XP := explorer_of [entry "two" 10]) 0
      (main_objects (EP := first_legal_until_ply_two) 0%nat (board_of 4 White)) =
      (s', Ok variations) /\
    board_at s' 0 = board_of 4 White /\
    (length variations <= 3)%nat /\
    Forall2
      (fun candidate v =>
         exists line,
           final_board v = foldl push (board_of 4 White) (candidate :: line) /\
           legal_line (board_of 4 White) (candidate :: line) /\
           moves v = line_texts (board_of 4 White) (candidate :: line) /\
           length (critical_info v) = length (candidate :: line) /\
           (length line < 5)%nat)
      [2%nat; 1%nat] variations.
Proof.
  apply (main_variations_walks_each_candidate (EP := first_legal_until_ply_two)
           (XP := explorer_of [entry "two" 10])
           ltac:(scored_stub) first_legal_lines_start_legal heap_parse_is_legal
           (by_tokens_multipv_lines_start_legal _ _)
           0%nat (main_objects (EP := first_legal_until_ply_two) 0%nat (board_of 4 White))
           {| w_engine := 1%nat; w_board := board_of 4 White |} [2%nat; 1%nat]).
  - cbn. lia.
  - reflexivity.
Defined.

(** A text that does not parse makes the whole list fail. *)
Example get_fen_from_moves_bad_text :
  get_fen_from_moves {| tokens := 3; to_move := White |} ["two"; "two"; "one"] = None.
Proof. reflexivity. Qed.

End MoreRuns.
